(** * Reddit comment analyzer: slang matching, accumulation and scoring

    A shallow embedding of [RedditCommentAnalyzer] (src/reddit_analyzer.py):
    [analyze_comment], the per-comment loop of [analyze_subreddit_comments]
    and [calculate_gen_z_score].

    Conventions.
    - A Python [str] is a sequence of Unicode code points: [list N].
    - [str.count] and [str.split] are written out below; [str.lower], whose
      tables are those of the Unicode database, is a parameter of the
      matcher, constrained only by the laws a theorem really uses.
    - A [dict] / [Counter] is a finite map [gmap (list N) Z].
    - Python integers are [Z]; a float is a binary64 value of
      [SpecFloat.spec_float]. *)

From Stdlib Require Import ZArith NArith List Bool Lia String Ascii.
From Stdlib Require Import QArith Qpower Lqa.
From Stdlib Require Import Floats.SpecFloat.
From stdpp Require Import base option list gmap fin_maps.

Open Scope Z_scope.

(** ** Strings *)

Abbreviation str := (list N).

(** Code points of an ASCII literal. *)
Definition lit (x : string) : str :=
  List.map N_of_ascii (list_ascii_of_string x).

(** [sub] occurs at the head of [t]. *)
Fixpoint starts_with (sub t : str) : bool :=
  match sub, t with
  | [], _ => true
  | _ :: _, [] => false
  | a :: sub', b :: t' => N.eqb a b && starts_with sub' t'
  end.

(** Left-to-right scan of [str.count] for a non-empty pattern: [skip] is the
    number of characters of the last matched span still to be passed over. *)
Fixpoint count_scan (sub : str) (skip : nat) (t : str) : Z :=
  match t with
  | [] => 0
  | _ :: t' =>
      match skip with
      | S k => count_scan sub k t'
      | O =>
          if starts_with sub t
          then 1 + count_scan sub (Nat.pred (length sub)) t'
          else count_scan sub 0 t'
      end
  end.

(** [text.count(sub)]: non-overlapping occurrences; the empty pattern is
    found at every position, the end included. *)
Definition str_count (text sub : str) : Z :=
  match sub with
  | [] => Z.of_nat (length text) + 1
  | _ :: _ => count_scan sub 0 text
  end.

(** Whitespace of [str.split()] (the code points with [str.isspace]). *)
Definition is_space (c : N) : bool :=
  existsb (N.eqb c)
    [9; 10; 11; 12; 13; 28; 29; 30; 31; 32; 133; 160; 5760;
     8192; 8193; 8194; 8195; 8196; 8197; 8198; 8199; 8200; 8201; 8202;
     8232; 8233; 8239; 8287; 12288]%N.

(** [len(text.split())]: the number of maximal runs of non-whitespace. *)
Fixpoint split_len_from (in_word : bool) (t : str) : Z :=
  match t with
  | [] => 0
  | c :: t' =>
      if is_space c then split_len_from false t'
      else (if in_word then 0 else 1) + split_len_from true t'
  end.

Definition split_len (t : str) : Z := split_len_from false t.

(** [str.lower] on ASCII text: A-Z to a-z, every other character kept. *)
Definition ascii_lower_char (c : N) : N :=
  if (N.leb 65 c && N.leb c 90)%bool then (c + 32)%N else c.

Definition ascii_lower (t : str) : str := List.map ascii_lower_char t.

(** ** The matcher *)

Section Matcher.
(** [str.lower]. *)
Variable lower : str -> str.

(** One turn of the keyword loop of [analyze_comment]. *)
Definition count_keyword (text : str) (keyword_counts : gmap (list N) Z)
    (keyword : str) : gmap (list N) Z :=
  let count := str_count text (lower keyword) in
  if 0 <? count then <[keyword := count]> keyword_counts
  else keyword_counts.

Definition analyze_comment (keywords : list str) (comment_text : str)
    : gmap (list N) Z :=
  let text := lower comment_text in
  fold_left (count_keyword text) keywords ∅.
End Matcher.

(** The shipped [self.keywords], in source order, duplicates included. *)
Definition keywords : list str :=
  List.map lit
    ["rizz"; "gyatt"; "fr"; "fr fr"; "frfr"; "no cap"; "cap"; "bussin"; "bussin bussin";
     "slay"; "slayed"; "slaying"; "based"; "mid"; "valid"; "invalid"; "taking Ls";
     "taking Ws"; "common L"; "common W"; "rare L"; "rare W"; "massive L"; "massive W";
     "huge L"; "huge W"; "bruh"; "bruhhh"; "skull"]%string
  ++ [[128128%N]]
  ++ List.map lit
    ["crying"; "im dead"; "i'm dead";
     "ded"; "wheeze"; "screaming"; "down bad"; "down horrendous"; "touch grass";
     "grass touched"; "unspoken rizz"; "no rizz"; "negative rizz"; "infinite rizz"; "ngl";
     "idk"; "idc"; "tbh"; "imo"; "imho"; "istg"; "iykyk"; "iirc"; "nvm"; "tbf"; "ratio";
     "counter ratio"; "ratioed"; "rent free"; "living rent free"; "main character"; "npc";
     "caught in 4k"; "in 4k"; "pov"; "literally me"; "lowkey"; "highkey"; "hits different";
     "hitting different"; "real"; "so real"; "peak"; "bottom tier"; "top tier"; "no shot";
     "ain't no way"; "deadass"; "on god"; "ong"; "sheesh"; "sheeesh"; "skibidi"; "ohio";
     "real ohio moment"; "chad"; "sigma"; "alpha"; "beta"; "karen"; "boomer"; "zoomer";
     "copium"; "hopium"; "propaganda"; "fam"; "bestie"; "bestie moment"; "material"; "tea";
     "spill the tea"; "pressed"; "salty"; "sus"; "sus af"; "goated"; "actually goated";
     "cracked"; "built different"; "different breed"; "trash"; "garbage"; "ain't it";
     "no printer"; "straight fax"; "heard you"; "say less"; "bet"; "facts"; "big facts";
     "rizz god"; "sleeping on"; "giving"; "era"; "vibe check"; "understood the assignment";
     "passes the vibe check"; "failed the vibe check"; "clapped"; "bozo"; "deadass";
     "finna"; "hits"; "period"; "periodt"; "purr"; "respectfully"; "throwing shade";
     "yeet"; "hits"; "smoking that pack"; "caught in hd"; "ate"; "devious lick"; "til";
     "afaik"; "goat"; "rn"; "mf"; "fs"; "w rizz"; "big w"; "major l"; "huge l"; "tfw";
     "mfw"; "me when"; "mood"; "based and redpilled"; "cope"; "drip"; "clean"; "fire";
     "gas"; "slaps"; "caught lacking"; "on god"; "fr on god"; "no printer just fax";
     "sadge"; "poggers"; "thicc"; "kinda"; "cringe"; "woke"; "toxic"; "main character energy"]%string.


(** ** Exceptions *)

Inductive exn :=
  | AttributeError | ZeroDivisionError | OverflowError | ValueError
  | FetchError.

Inductive result (A : Type) :=
  | Ok (a : A)
  | Raise (e : exn).
Arguments Ok {A} a.
Arguments Raise {A} e.

(** ** The accumulator *)

(** The value of [comment.body]: a string, or some object that is not one. *)
Inductive value :=
  | VStr (s : str)
  | VNone.

(** A comment of the listing; reading [body] of a comment that cannot be
    fetched raises. *)
Inductive comment :=
  | Comment (body : value)
  | Unfetchable.

(** The counters of [analyze_subreddit_comments]. *)
Record totals := Totals {
  total_words : Z;
  total_slang : Z;
  keyword_counts : gmap (list N) Z;
  comments_with_slang : Z;
  processed_comments : Z }.

Definition initial_totals : totals := Totals 0 0 ∅ 0 0.

(** Statements of the loop body: each maps the counters to an outcome and
    the counters reached; an exception keeps what was reached. *)
Definition stmt (A : Type) : Type := totals -> result A * totals.

Definition ret {A} (a : A) : stmt A := fun st => (Ok a, st).
Definition eval {A} (r : result A) : stmt A := fun st => (r, st).
Definition assign (f : totals -> totals) : stmt unit := fun st => (Ok tt, f st).
Definition bind {A B} (m : stmt A) (k : A -> stmt B) : stmt B :=
  fun st =>
    match m st with
    | (Ok a, st') => k a st'
    | (Raise e, st') => (Raise e, st')
    end.

Notation "'let*' x := m 'in' k" := (bind m (fun x => k))
  (at level 10, x name, m at level 100, k at level 200).
Notation "'exec' m 'then' k" := (bind m (fun _ => k))
  (at level 10, m at level 100, k at level 200).

Definition get_body (c : comment) : result value :=
  match c with
  | Comment b => Ok b
  | Unfetchable => Raise FetchError
  end.

(** [body in ['[deleted]', '[removed]']]. *)
Definition is_placeholder (b : value) : bool :=
  match b with
  | VStr s =>
      bool_decide (s = lit "[deleted]") || bool_decide (s = lit "[removed]")
  | VNone => false
  end.

(** [sum(d.values())]. *)
Definition sum_values (d : gmap (list N) Z) : Z :=
  map_fold (fun _ v acc => acc + v) 0 d.

(** [Counter.update]: counts are added key by key. *)
Definition counter_update (c d : gmap (list N) Z) : gmap (list N) Z :=
  union_with (fun a b => Some (a + b)) c d.

Definition add_words (n : Z) (st : totals) : totals :=
  Totals (total_words st + n) (total_slang st) (keyword_counts st)
    (comments_with_slang st) (processed_comments st).

Definition add_slang (d : gmap (list N) Z) (st : totals) : totals :=
  Totals (total_words st) (total_slang st + sum_values d)
    (counter_update (keyword_counts st) d)
    (comments_with_slang st + 1) (processed_comments st).

Definition count_processed (st : totals) : totals :=
  Totals (total_words st) (total_slang st) (keyword_counts st)
    (comments_with_slang st) (processed_comments st + 1).

Section Accumulator.
Variable lower : str -> str.
Variable vocabulary : list str.

(** [self.analyze_comment(body)]: [.lower()] of a non-string raises. *)
Definition analyze_value (b : value) : result (gmap (list N) Z) :=
  match b with
  | VStr s => Ok (analyze_comment lower vocabulary s)
  | VNone => Raise AttributeError
  end.

(** [len(body.split())]. *)
Definition count_words (b : value) : result Z :=
  match b with
  | VStr s => Ok (split_len s)
  | VNone => Raise AttributeError
  end.

(** The body of the inner [try]. *)
Definition try_body (c : comment) : stmt unit :=
  let* b := eval (get_body c) in
  if is_placeholder b then ret tt
  else
    let* comment_keywords := eval (analyze_value b) in
    let* b' := eval (get_body c) in
    let* words_in_comment := eval (count_words b') in
    exec assign (add_words words_in_comment) then
    exec (if bool_decide (comment_keywords = ∅) then ret tt
          else assign (add_slang comment_keywords)) then
    assign count_processed.

(** One turn of the loop: the handler reports and goes on. *)
Definition loop_turn (st : totals) (c : comment) : totals :=
  snd (try_body c st).

Definition accumulate (comments : list comment) (st : totals) : totals :=
  fold_left loop_turn comments st.
End Accumulator.

(** ** The score *)

(** Binary64. *)
Definition prec : Z := 53.
Definition emax : Z := 1024.

(** [float(n)] for an integer that a double holds exactly. *)
Definition float_of_int (n : Z) : spec_float :=
  binary_normalize prec emax n 0 false.

(** The integer as an unrounded float: sign, magnitude, exponent 0. *)
Definition exact_int (n : Z) : spec_float :=
  match n with
  | Z0 => S754_zero false
  | Zpos p => S754_finite false p 0
  | Zneg p => S754_finite true p 0
  end.

(** [a / b] on integers: the quotient rounded once to binary64 (nearest,
    ties to even); a zero divisor and a result beyond the doubles raise. *)
Definition int_true_divide (a b : Z) : result spec_float :=
  if b =? 0 then Raise ZeroDivisionError
  else
    match SFdiv prec emax (exact_int a) (exact_int b) with
    | S754_infinity _ => Raise OverflowError
    | q => Ok q
    end.

(** The integer nearest to [m * 2^e], ties to the even one. *)
Definition round_half_even (m : positive) (e : Z) : Z :=
  match e with
  | Zneg k =>
      let d := Z.pow_pos 2 k in
      let q := Z.pos m / d in
      let r := Z.pos m mod d in
      match 2 * r ?= d with
      | Lt => q
      | Gt => q + 1
      | Eq => if Z.even q then q else q + 1
      end
  | _ => Z.pos m * 2 ^ e
  end.

(** [round(x)] of a float, without [ndigits]. *)
Definition float_round (x : spec_float) : result Z :=
  match x with
  | S754_zero _ => Ok 0
  | S754_infinity _ => Raise OverflowError
  | S754_nan => Raise ValueError
  | S754_finite s m e => Ok (cond_Zopp s (round_half_even m e))
  end.

Definition calculate_gen_z_score (total_keywords total_words : Z) : result Z :=
  if total_words =? 0 then Ok 0
  else
    match int_true_divide total_keywords total_words with
    | Raise e => Raise e
    | Ok q =>
        let density := SFmul prec emax q (float_of_int 200) in
        match float_round density with
        | Raise e => Raise e
        | Ok n => Ok (Z.min 100 n)
        end
    end.


(** ** The whole run *)

(** The text the loop analyses in a comment: a string body that is not one
    of the two placeholders. Every other comment is passed over, by
    [continue] or by the handler. *)
Definition analysed_body (c : comment) : option str :=
  match c with
  | Comment (VStr s) => if is_placeholder (VStr s) then None else Some s
  | _ => None
  end.

(** Sum of a list of integers. *)
Definition sum_list (l : list Z) : Z := foldr Z.add 0 l.

Section Run.
Variable lower : str -> str.
Variable vocabulary : list str.

(** [analyze_subreddit_comments] on the comments the listing yields: the
    counters after the loop and the score computed from them (what is then
    saved and printed). *)
Definition analyze_subreddit_comments (comments : list comment)
    : result Z * totals :=
  let st := accumulate lower vocabulary comments initial_totals in
  (calculate_gen_z_score (total_slang st) (total_words st), st).
End Run.

(** What every turn of the loop keeps of its counters, for a given
    vocabulary. *)
Definition consistent (vocabulary : list str) (st : totals) : Prop :=
  0 <= comments_with_slang st <= processed_comments st
  /\ comments_with_slang st <= total_slang st
  /\ 0 <= total_words st
  /\ sum_values (keyword_counts st) = total_slang st
  /\ map_Forall (fun k n => 1 <= n /\ k ∈ vocabulary) (keyword_counts st).

(** ** Rounding, as arithmetic

    What the shifts and the location of [SpecFloat] compute, in terms of a
    quotient [P / Q] of integers. *)

(** Where [R / Q] lies in the unit interval, for [0 <= R < Q]. *)
Definition loc_of (R Q : Z) : location :=
  if R =? 0 then loc_Exact else loc_Inexact (2 * R ?= Q).

(** The shifted record [mrs] stands for the rational [P / Q]: its mantissa
    is the integer part, its two bits locate the fraction. *)
Definition represents (mrs : shr_record) (P Q : Z) : Prop :=
  shr_m mrs = P / Q /\ loc_of_shr_record mrs = loc_of (P mod Q) Q.

(** [P / Q] rounded to the nearest integer, ties to the even one. *)
Definition rne_div (P Q : Z) : Z :=
  let q := P / Q in
  let r := P mod Q in
  match 2 * r ?= Q with
  | Lt => q
  | Gt => q + 1
  | Eq => if Z.even q then q else q + 1
  end.


(** [2^e] as a rational, for any integer [e]. *)
Definition pow2 (e : Z) : Q := Qpower 2 e.

(** [f] is the double nearest to the positive rational [v]. *)
Definition rounds_to (v : Q) (f : spec_float) : Prop :=
  match f with
  | S754_finite false m e =>
      2 ^ 52 <= Z.pos m <= 2 ^ 53 /\ -1074 <= e <= 971
      /\ (inject_Z (2 * Z.pos m - 1) * pow2 e <= 2 * v)%Q
      /\ (2 * v <= inject_Z (2 * Z.pos m + 1) * pow2 e)%Q
  | S754_infinity false => (pow2 1023 <= v)%Q
  | _ => False
  end.


(** * Properties *)

(** ** Substring counting *)

Lemma count_scan_nonneg (sub : str) (t : str) :
  forall skip, 0 <= count_scan sub skip t.
Proof.
  induction t as [|c t IH]; intros skip; simpl; [lia|].
  destruct skip as [|k]; [|apply IH].
  destruct (starts_with sub (c :: t)).
  - specialize (IH (Nat.pred (length sub))). lia.
  - apply IH.
Qed.

Lemma starts_with_app (sub post : str) : starts_with sub (sub ++ post) = true.
Proof.
  induction sub as [|a sub IH]; simpl; [done|].
  by rewrite N.eqb_refl, IH.
Qed.

Lemma starts_with_prefix (sub t : str) :
  starts_with sub t = true -> exists post, t = sub ++ post.
Proof.
  revert t. induction sub as [|a sub IH]; intros t H; simpl in *.
  - by exists t.
  - destruct t as [|b t]; [done|].
    apply andb_true_iff in H as [Hab H].
    apply N.eqb_eq in Hab as ->.
    destruct (IH _ H) as [post ->]. by exists post.
Qed.

(** An occurrence anywhere in the text is counted at least once. *)
Lemma count_scan_occurrence (sub pre post : str) :
  1 <= count_scan sub 0 (pre ++ sub ++ post) \/ sub = [].
Proof.
  destruct sub as [|a sub]; [by right|left].
  induction pre as [|c pre IH].
  - cbn [app count_scan].
    change (a :: sub ++ post) with ((a :: sub) ++ post).
    rewrite starts_with_app.
    pose proof (count_scan_nonneg (a :: sub) (sub ++ post)
                  (Nat.pred (length (a :: sub)))). lia.
  - change ((c :: pre) ++ (a :: sub) ++ post)
      with (c :: (pre ++ (a :: sub) ++ post)).
    cbn [count_scan].
    destruct (starts_with _ _); [|exact IH].
    pose proof (count_scan_nonneg (a :: sub) (pre ++ (a :: sub) ++ post)
                  (Nat.pred (length (a :: sub)))). lia.
Qed.

(** A positive count comes from an occurrence. *)
Lemma count_scan_positive (sub t : str) :
  forall skip, 0 < count_scan sub skip t ->
  exists pre post, t = pre ++ sub ++ post.
Proof.
  induction t as [|c t IH]; intros skip H; simpl in H; [lia|].
  destruct skip as [|k].
  - destruct (starts_with sub (c :: t)) eqn:E.
    + apply starts_with_prefix in E as [post ->]. by exists [], post.
    + destruct (IH _ H) as (pre & post & ->). by exists (c :: pre), post.
  - destruct (IH _ H) as (pre & post & ->). by exists (c :: pre), post.
Qed.

Lemma str_count_nonneg (text sub : str) : 0 <= str_count text sub.
Proof.
  destruct sub; simpl; [lia|apply count_scan_nonneg].
Qed.

Lemma str_count_occurrence (sub pre post : str) :
  1 <= str_count (pre ++ sub ++ post) sub.
Proof.
  destruct sub as [|a sub]; [simpl; lia|].
  destruct (count_scan_occurrence (a :: sub) pre post); [done|discriminate].
Qed.

Lemma str_count_empty_text (sub : str) : sub <> [] -> str_count [] sub = 0.
Proof. by destruct sub. Qed.

(** The characters of a matched span are passed over without a look. *)
Lemma count_scan_skip (sub pre rest : str) :
  count_scan sub (length pre) (pre ++ rest) = count_scan sub 0 rest.
Proof. induction pre as [|c pre IH]; [done|]. exact IH. Qed.

(** A match at the head is counted, and the scan resumes after it. *)
Lemma str_count_match (sub rest : str) :
  sub <> [] -> str_count (sub ++ rest) sub = 1 + str_count rest sub.
Proof.
  destruct sub as [|a sub]; [done|]. intros _.
  unfold str_count. change ((a :: sub) ++ rest) with (a :: (sub ++ rest)).
  cbn [count_scan].
  change (a :: (sub ++ rest)) with ((a :: sub) ++ rest).
  rewrite starts_with_app. cbn [length Nat.pred].
  by rewrite count_scan_skip.
Qed.

(** No match at the head: the scan moves on by one character. *)
Lemma str_count_no_match (sub text : str) (c : N) :
  sub <> [] -> (forall rest, c :: text <> sub ++ rest) ->
  str_count (c :: text) sub = str_count text sub.
Proof.
  destruct sub as [|a sub]; [done|]. intros _ Hno.
  unfold str_count. cbn [count_scan].
  destruct (starts_with (a :: sub) (c :: text)) eqn:E; [|done].
  apply starts_with_prefix in E as [rest E]. by destruct (Hno rest).
Qed.

(** ** The matcher *)

Section MatcherFacts.
Variable lower : str -> str.

Lemma fold_count_keyword_lookup (text : str) (v : list str) :
  forall (m : gmap (list N) Z) (k : str),
  fold_left (count_keyword lower text) v m !! k =
    if decide (k ∈ v /\ 0 < str_count text (lower k))
    then Some (str_count text (lower k))
    else m !! k.
Proof.
  induction v as [|kw v IH]; intros m k; simpl.
  - destruct (decide (k ∈ [] /\ 0 < str_count text (lower k))) as [[H _]|];
      [by apply elem_of_nil in H|done].
  - rewrite IH. unfold count_keyword.
    destruct (decide (k ∈ v /\ _)) as [[Hin Hpos]|Hno].
    + rewrite decide_True; [done|]. split; [by right|done].
    + destruct (decide (k = kw)) as [->|Hne].
      * destruct (Z.ltb_spec 0 (str_count text (lower kw))) as [Hpos|Hle].
        -- rewrite lookup_insert_eq.
           rewrite decide_True; [done|]. split; [by left|done].
        -- rewrite decide_False; [done|]. intros [_ ?]; lia.
      * assert (Hm : (if 0 <? str_count text (lower kw)
                      then <[kw:=str_count text (lower kw)]> m else m) !! k
                     = m !! k).
        { destruct (0 <? _); [by rewrite lookup_insert_ne|done]. }
        rewrite Hm. rewrite decide_False; [done|].
        intros [Hin Hpos]. apply Hno. split; [|done].
        apply elem_of_cons in Hin as [?|?]; [done|done].
Qed.

(** What [analyze_comment] holds for each phrase. *)
Lemma analyze_comment_lookup (v : list str) (t k : str) :
  analyze_comment lower v t !! k =
    if decide (k ∈ v /\ 0 < str_count (lower t) (lower k))
    then Some (str_count (lower t) (lower k))
    else None.
Proof.
  unfold analyze_comment. rewrite fold_count_keyword_lookup.
  destruct (decide (k ∈ v /\ 0 < str_count (lower t) (lower k))); done.
Qed.

(** The result depends on the vocabulary only as a set. *)
Lemma analyze_comment_same_phrases (v v' : list str) (t : str) :
  (forall k, k ∈ v <-> k ∈ v') ->
  analyze_comment lower v t = analyze_comment lower v' t.
Proof.
  intros H. apply map_eq. intros k. rewrite !analyze_comment_lookup.
  destruct (decide (k ∈ v /\ _)) as [[Hin Hp]|Hn].
  - rewrite decide_True; [done|]. split; [by apply H|done].
  - rewrite decide_False; [done|]. intros [Hin Hp]. apply Hn.
    split; [by apply H|done].
Qed.
End MatcherFacts.

Lemma ascii_lower_idem (t : str) : ascii_lower (ascii_lower t) = ascii_lower t.
Proof.
  unfold ascii_lower. rewrite List.map_map. apply List.map_ext. intros c.
  unfold ascii_lower_char.
  destruct (N.leb_spec 65 c), (N.leb_spec c 90); simpl; try done.
  - destruct (N.leb_spec 65 (c + 32)), (N.leb_spec (c + 32) 90); simpl;
      try done; lia.
  - destruct (N.leb_spec 65 c), (N.leb_spec c 90); simpl; try done; lia.
  - destruct (N.leb_spec 65 c), (N.leb_spec c 90); simpl; try done; lia.
  - destruct (N.leb_spec 65 c), (N.leb_spec c 90); simpl; try done; lia.
Qed.

Lemma ascii_lower_nonempty (t : str) : t <> [] -> ascii_lower t <> [].
Proof. by destruct t. Qed.

(** C4: every entry of the mapping returned by [analyze_comment] has a count
    of at least 1 and a key taken from the vocabulary, whatever the text,
    the vocabulary and the lowercasing. *)
Theorem analyze_comment_counts_positive
    (lower : str -> str) (v : list str) (t : str) :
  map_Forall (fun k n => 1 <= n /\ k ∈ v) (analyze_comment lower v t).
Proof.
  intros k n. rewrite analyze_comment_lookup.
  destruct (decide (k ∈ v /\ 0 < str_count (lower t) (lower k)))
    as [[Hin Hpos]|]; [|done].
  intros [= <-]. split; [lia|done].
Qed.

(** C5: occurrences are counted without overlap, by a scan from the left
    that resumes after each matched span. The entry of a listed phrase is
    the count of its lowercased form in the lowercased text, when that is
    positive, and this count obeys the rule of the scan: a match at the
    head counts one and the scan goes on behind the matched span; without
    a match at the head the scan moves on by one character; in the empty
    text nothing is found. So "aa" is found once in "aaa", and in
    "bruh bruh that's based" the phrase "bruh" is found twice and "based"
    once, on the vocabulary of these two phrases and, for these two keys,
    on every vocabulary that holds them. The texts are ASCII, where
    [lower] is the ASCII lowercasing. *)
Theorem analyze_comment_non_overlapping (lower : str -> str)
    (lower_ascii : forall t, Forall (fun c => (c < 128)%N) t ->
                             lower t = ascii_lower t) :
  (forall (v : list str) (t k : str), k ∈ v ->
     analyze_comment lower v t !! k
     = if decide (0 < str_count (lower t) (lower k))
       then Some (str_count (lower t) (lower k)) else None)
  /\ (forall sub rest : str, sub <> [] ->
        str_count (sub ++ rest) sub = 1 + str_count rest sub)
  /\ (forall (sub text : str) (c : N), sub <> [] ->
        (forall rest, c :: text <> sub ++ rest) ->
        str_count (c :: text) sub = str_count text sub)
  /\ (forall sub : str, sub <> [] -> str_count [] sub = 0)
  /\ analyze_comment lower [lit "aa"] (lit "aaa") = {[ lit "aa" := 1 ]}
  /\ analyze_comment lower [lit "bruh"; lit "based"]
       (lit "bruh bruh that's based")
     = <[ lit "bruh" := 2 ]> {[ lit "based" := 1 ]}
  /\ forall v : list str, lit "bruh" ∈ v -> lit "based" ∈ v ->
       analyze_comment lower v (lit "bruh bruh that's based") !! lit "bruh"
         = Some 2
       /\ analyze_comment lower v (lit "bruh bruh that's based") !! lit "based"
         = Some 1.
Proof.
  assert (Haa : lower (lit "aa") = lit "aa").
  { rewrite lower_ascii; [done|]. repeat constructor. }
  assert (Haaa : lower (lit "aaa") = lit "aaa").
  { rewrite lower_ascii; [done|]. repeat constructor. }
  assert (Hbruh : lower (lit "bruh") = lit "bruh").
  { rewrite lower_ascii; [done|]. repeat constructor. }
  assert (Hbased : lower (lit "based") = lit "based").
  { rewrite lower_ascii; [done|]. repeat constructor. }
  assert (Htext : lower (lit "bruh bruh that's based")
                  = lit "bruh bruh that's based").
  { rewrite lower_ascii; [done|]. repeat constructor. }
  split_and!.
  - intros v t k Hk. rewrite analyze_comment_lookup.
    destruct (decide (0 < str_count (lower t) (lower k))) as [Hp|Hp].
    + by rewrite decide_True.
    + rewrite decide_False; [done|]. by intros [_ ?].
  - apply str_count_match.
  - apply str_count_no_match.
  - apply str_count_empty_text.
  - unfold analyze_comment. cbn [fold_left]. unfold count_keyword.
    rewrite Haa, Haaa. done.
  - unfold analyze_comment. cbn [fold_left]. unfold count_keyword.
    rewrite Hbruh, Hbased, Htext.
    change (str_count (lit "bruh bruh that's based") (lit "bruh")) with 2.
    change (str_count (lit "bruh bruh that's based") (lit "based")) with 1.
    change (0 <? 2) with true. change (0 <? 1) with true. cbn iota.
    apply insert_insert_ne. done.
  - intros v Hr Hb. rewrite !analyze_comment_lookup.
    rewrite Hbruh, Hbased, Htext.
    change (str_count (lit "bruh bruh that's based") (lit "bruh")) with 2.
    change (str_count (lit "bruh bruh that's based") (lit "based")) with 1.
    rewrite !decide_True; [done| |]; (split; [done|lia]).
Qed.

Lemma analyze_comment_non_overlapping_witness :
  (forall (v : list str) (t k : str), k ∈ v ->
     analyze_comment ascii_lower v t !! k
     = if decide (0 < str_count (ascii_lower t) (ascii_lower k))
       then Some (str_count (ascii_lower t) (ascii_lower k)) else None)
  /\ (forall sub rest : str, sub <> [] ->
        str_count (sub ++ rest) sub = 1 + str_count rest sub)
  /\ (forall (sub text : str) (c : N), sub <> [] ->
        (forall rest, c :: text <> sub ++ rest) ->
        str_count (c :: text) sub = str_count text sub)
  /\ (forall sub : str, sub <> [] -> str_count [] sub = 0)
  /\ analyze_comment ascii_lower [lit "aa"] (lit "aaa") = {[ lit "aa" := 1 ]}
  /\ analyze_comment ascii_lower [lit "bruh"; lit "based"]
       (lit "bruh bruh that's based")
     = <[ lit "bruh" := 2 ]> {[ lit "based" := 1 ]}
  /\ forall v : list str, lit "bruh" ∈ v -> lit "based" ∈ v ->
       analyze_comment ascii_lower v (lit "bruh bruh that's based")
         !! lit "bruh" = Some 2
       /\ analyze_comment ascii_lower v (lit "bruh bruh that's based")
         !! lit "based" = Some 1.
Proof.
  apply (analyze_comment_non_overlapping ascii_lower).
  intros t _. reflexivity.
Defined.

(** C6: matching is case-insensitive and reads only the lowercased text:
    the result for a text is the result for its lowercased form, and a
    phrase whose lowercased form occurs anywhere in the lowercased text,
    inside a larger word or not, is reported with a positive count.
    [str.lower] is idempotent. *)
Theorem analyze_comment_case_insensitive (lower : str -> str)
    (lower_idem : forall t, lower (lower t) = lower t)
    (v : list str) (t : str) :
  analyze_comment lower v t = analyze_comment lower v (lower t)
  /\ forall k pre post : str, k ∈ v -> lower t = pre ++ lower k ++ post ->
       exists n, analyze_comment lower v t !! k = Some n /\ 1 <= n.
Proof.
  split.
  - unfold analyze_comment. by rewrite lower_idem.
  - intros k pre post Hin Hocc. rewrite analyze_comment_lookup.
    pose proof (str_count_occurrence (lower k) pre post) as H.
    rewrite <- Hocc in H.
    rewrite decide_True by (split; [done|lia]). eauto.
Qed.

Lemma analyze_comment_case_insensitive_witness :
  analyze_comment ascii_lower [lit "cap"] (lit "No CAP, Captain")
    = analyze_comment ascii_lower [lit "cap"]
        (ascii_lower (lit "No CAP, Captain"))
  /\ exists n, analyze_comment ascii_lower [lit "cap"] (lit "No CAP, Captain")
                 !! lit "cap" = Some n /\ 1 <= n.
Proof.
  destruct (analyze_comment_case_insensitive ascii_lower ascii_lower_idem
              [lit "cap"] (lit "No CAP, Captain")) as [H1 H2].
  split; [exact H1|].
  apply (H2 (lit "cap") (lit "no cap, ") (lit "tain")).
  - apply list_elem_of_singleton. reflexivity.
  - reflexivity.
Defined.

(** C9: a phrase listed more than once in the vocabulary is reported once,
    with its occurrence count counted once: the result is the one for the
    vocabulary with the duplicates removed, and more generally for any
    vocabulary with the same phrases. *)
Theorem analyze_comment_duplicates (lower : str -> str)
    (v : list str) (t : str) :
  analyze_comment lower v t = analyze_comment lower (remove_dups v) t
  /\ (forall v', (forall k, k ∈ v <-> k ∈ v') ->
        analyze_comment lower v t = analyze_comment lower v' t)
  /\ (forall k, k ∈ v -> 0 < str_count (lower t) (lower k) ->
        analyze_comment lower v t !! k
          = Some (str_count (lower t) (lower k))).
Proof.
  split; [|split].
  - apply analyze_comment_same_phrases. intros k.
    by rewrite elem_of_remove_dups.
  - intros v' H. by apply analyze_comment_same_phrases.
  - intros k Hin Hpos. rewrite analyze_comment_lookup.
    by rewrite decide_True.
Qed.

(** The phrases listed twice in the shipped vocabulary. *)
Lemma keywords_duplicates :
  List.filter (fun k => bool_decide (1 < length (List.filter
                          (fun k' => bool_decide (k' = k)) keywords))%nat)
    (remove_dups keywords)
  = [lit "deadass"; lit "hits"; lit "on god"].
Proof. vm_compute. reflexivity. Qed.

Lemma keywords_duplicates_counted_once :
  analyze_comment ascii_lower keywords (lit "Deadass, that hits. On god.")
  = analyze_comment ascii_lower (remove_dups keywords)
      (lit "Deadass, that hits. On god.")
  /\ map_to_list (analyze_comment ascii_lower keywords
                    (lit "Deadass, that hits. On god."))
     = [(lit "hits", 1); (lit "deadass", 1); (lit "on god", 1)].
Proof.
  split; [apply analyze_comment_same_phrases; intros k;
          by rewrite elem_of_remove_dups|].
  vm_compute. reflexivity.
Qed.

(** C10: on the empty text a vocabulary of non-empty phrases matches
    nothing; an empty phrase in the vocabulary is reported for every text,
    the empty one included, with the length of the lowercased text plus
    one as its count. [str.lower] maps the empty string to itself and
    nothing else to it. *)
Theorem analyze_comment_empty_text (lower : str -> str)
    (lower_nil : lower [] = [])
    (lower_nonempty : forall t, t <> [] -> lower t <> []) :
  (forall v : list str, Forall (fun k => k <> []) v ->
     analyze_comment lower v [] = ∅)
  /\ (forall (v : list str) (t : str), [] ∈ v ->
        analyze_comment lower v t !! []
          = Some (Z.of_nat (length (lower t)) + 1)
        /\ 1 <= Z.of_nat (length (lower t)) + 1)
  /\ (forall v : list str, [] ∈ v ->
        analyze_comment lower v [] !! [] = Some 1).
Proof.
  split; [|split].
  - intros v Hv. apply map_eq. intros k.
    rewrite analyze_comment_lookup, lookup_empty.
    destruct (decide (k ∈ v /\ 0 < str_count (lower []) (lower k)))
      as [[Hin Hpos]|]; [|done].
    rewrite Forall_forall in Hv.
    rewrite lower_nil, str_count_empty_text in Hpos; [lia|].
    apply lower_nonempty, Hv, Hin.
  - intros v t Hin. rewrite analyze_comment_lookup, lower_nil. simpl.
    split; [|lia]. rewrite decide_True; [done|]. split; [done|lia].
  - intros v Hin. rewrite analyze_comment_lookup, !lower_nil. simpl.
    rewrite decide_True; [done|]. split; [done|lia].
Qed.

Lemma analyze_comment_empty_text_witness :
  analyze_comment ascii_lower [lit "fr"; lit "no cap"] [] = ∅
  /\ analyze_comment ascii_lower [lit "fr"; []] (lit "Bruh") !! [] = Some 5
  /\ analyze_comment ascii_lower [lit "fr"; []] [] !! [] = Some 1.
Proof.
  destruct (analyze_comment_empty_text ascii_lower eq_refl
              ascii_lower_nonempty) as (H1 & H2 & H3).
  split; [|split].
  - apply H1. repeat constructor; discriminate.
  - apply (H2 [lit "fr"; []] (lit "Bruh")).
    apply list_elem_of_In. simpl. tauto.
  - apply H3. apply list_elem_of_In. simpl. tauto.
Defined.

(** ** The accumulator *)

Section AccumulatorFacts.
Variable lower : str -> str.
Variable vocabulary : list str.

(** The records on which the body of the [try] raises. *)
Lemma try_body_raises (c : comment) (st : totals) (e : exn) :
  fst (try_body lower vocabulary c st) = Raise e ->
  c = Unfetchable \/ c = Comment VNone.
Proof.
  destruct c as [[s|]|]; [|by right|by left].
  unfold try_body, bind, eval, ret, assign. cbn [get_body].
  destruct (is_placeholder (VStr s)); cbn; [discriminate|].
  destruct (bool_decide _); cbn; discriminate.
Qed.

(** Nothing is assigned before the raise. *)
Lemma try_body_raise_keeps (c : comment) (st : totals) :
  c = Unfetchable \/ c = Comment VNone ->
  exists e, try_body lower vocabulary c st = (Raise e, st).
Proof.
  intros [->| ->]; [by exists FetchError|by exists AttributeError].
Qed.

Lemma accumulate_app (pre post : list comment) (st : totals) :
  accumulate lower vocabulary (pre ++ post) st
  = accumulate lower vocabulary post (accumulate lower vocabulary pre st).
Proof. apply fold_left_app. Qed.

(** A record that is analysed: every counter moves as the loop says. *)
Lemma loop_turn_analysed (s : str) (st : totals) :
  is_placeholder (VStr s) = false ->
  loop_turn lower vocabulary st (Comment (VStr s))
  = let d := analyze_comment lower vocabulary s in
    let st1 := add_words (split_len s) st in
    count_processed (if bool_decide (d = ∅) then st1 else add_slang d st1).
Proof.
  intros H. unfold loop_turn, try_body, bind, eval, ret, assign.
  cbn [get_body]. rewrite H. cbn.
  destruct (bool_decide _); reflexivity.
Qed.
End AccumulatorFacts.

(** The end-to-end scenario of the specification: two records analysed,
    one failing record between them. *)
Lemma accumulate_scenario :
  let st := accumulate ascii_lower [lit "fr"; lit "no cap"]
              [Comment (VStr (lit "fr fr no cap")); Comment VNone;
               Comment (VStr (lit "this is fine"))] initial_totals in
  processed_comments st = 2 /\ total_words st = 7 /\ total_slang st = 3
  /\ comments_with_slang st = 1
  /\ map_to_list (keyword_counts st) = [(lit "fr", 2); (lit "no cap", 1)].
Proof. vm_compute. repeat split; reflexivity. Qed.

(** ** The score *)

(** [round] of a double that lies exactly half way between two integers
    gives the even one. *)
Lemma float_round_half (m j : positive) (k : Z) :
  0 <= k -> 2 * Z.pos m = (2 * k + 1) * 2 ^ Z.pos j ->
  float_round (S754_finite false m (Z.neg j))
  = Ok (if Z.even k then k else k + 1).
Proof.
  intros Hk H. unfold float_round, round_half_even. cbn [cond_Zopp].
  rewrite Z.pow_pos_fold in *.
  set (d := 2 ^ Z.pos j) in *.
  assert (Hd : 0 < d) by (apply Z.pow_pos_nonneg; lia).
  assert (Hm : Z.pos m = k * d + d / 2 /\ 2 * (d / 2) = d).
  { assert (Hev : d = 2 * 2 ^ (Z.pos j - 1)).
    { unfold d. rewrite <- Z.pow_succ_r by lia. f_equal. lia. }
    rewrite Hev. rewrite (Z.mul_comm 2 (2 ^ _)), Z.div_mul by lia.
    rewrite Hev in H. nia. }
  destruct Hm as [Hm Hhalf].
  assert (Hq : Z.pos m / d = k).
  { rewrite Hm. rewrite Z.div_add_l by lia.
    rewrite (Z.div_small (d / 2)); [lia|]. lia. }
  assert (Hr : Z.pos m mod d = d / 2).
  { rewrite Z.mod_eq by lia. rewrite Hq. lia. }
  rewrite Hq, Hr, Hhalf, Z.compare_refl. reflexivity.
Qed.

(** C7: with no words the score is 0, whatever the slang count; nothing
    is raised. *)
Theorem score_zero_words (s : Z) : calculate_gen_z_score s 0 = Ok 0.
Proof. reflexivity. Qed.

(** C3, as stated, fails: the densities 0.5 and 2.5 are not rounded up. *)
Lemma score_half_not_upward :
  ~ (calculate_gen_z_score 1 400 = Ok 1 /\ calculate_gen_z_score 5 400 = Ok 3).
Proof. intros [H _]. vm_compute in H. discriminate. Qed.

(** ** Binary64 rounding *)

Lemma digits2_pos_bounds (m : positive) :
  2 ^ (Z.pos (digits2_pos m) - 1) <= Z.pos m < 2 ^ Z.pos (digits2_pos m).
Proof.
  induction m as [m IH|m IH|]; cbn [digits2_pos].
  - rewrite Pos2Z.inj_succ.
    replace (Z.succ (Z.pos (digits2_pos m)) - 1) with (Z.succ (Z.pos (digits2_pos m) - 1)) by lia.
    rewrite !Z.pow_succ_r by lia. lia.
  - rewrite Pos2Z.inj_succ.
    replace (Z.succ (Z.pos (digits2_pos m)) - 1) with (Z.succ (Z.pos (digits2_pos m) - 1)) by lia.
    rewrite !Z.pow_succ_r by lia. lia.
  - simpl. lia.
Qed.

Lemma Zdigits2_bounds (m : Z) : 0 < m ->
  2 ^ (Zdigits2 m - 1) <= m < 2 ^ Zdigits2 m.
Proof.
  destruct m as [|p|p]; try lia. intros _. apply digits2_pos_bounds.
Qed.

Lemma Zdigits2_unique (m d : Z) :
  0 < d -> 2 ^ (d - 1) <= m < 2 ^ d -> Zdigits2 m = d.
Proof.
  intros Hd [Hl Hu].
  assert (Hm : 0 < m) by (pose proof (Z.pow_pos_nonneg 2 (d - 1)); lia).
  destruct (Zdigits2_bounds m Hm) as [Hl' Hu'].
  assert (Hd' : 0 < Zdigits2 m) by (destruct m; simpl; lia).
  destruct (Z.lt_trichotomy (Zdigits2 m) d) as [H|[H|H]]; [|done|].
  - assert (2 ^ Zdigits2 m <= 2 ^ (d - 1)) by (apply Z.pow_le_mono_r; lia). lia.
  - assert (2 ^ d <= 2 ^ (Zdigits2 m - 1)) by (apply Z.pow_le_mono_r; lia). lia.
Qed.

Lemma loc_of_record_of_loc (m : Z) (l : location) :
  loc_of_shr_record (shr_record_of_loc m l) = l
  /\ shr_m (shr_record_of_loc m l) = m.
Proof. destruct l as [|[]]; simpl; auto. Qed.

Lemma represents_of_loc (P Q : Z) :
  represents (shr_record_of_loc (P / Q) (loc_of (P mod Q) Q)) P Q.
Proof.
  unfold represents.
  destruct (loc_of_record_of_loc (P / Q) (loc_of (P mod Q) Q)) as [-> ->]. auto.
Qed.

Lemma shr_1_represents (mrs : shr_record) (P Q : Z) :
  0 <= P -> 0 < Q -> represents mrs P Q -> represents (shr_1 mrs) P (2 * Q).
Proof.
  intros HP HQ [Hm Hl].
  pose proof (Z.div_mod P Q ltac:(lia)) as HPQ.
  pose proof (Z.mod_pos_bound P Q HQ) as HR.
  pose proof (Z.div_pos P Q HP HQ) as Hq.
  remember (P mod Q) as R eqn:ER. remember (P / Q) as q eqn:Eq.
  clear ER Eq.
  destruct mrs as [m r s]. cbn [shr_m] in Hm. subst m.
  assert (Hrs : orb r s = negb (R =? 0)).
  { unfold loc_of in Hl. destruct (R =? 0), r, s; simpl in *; try reflexivity; discriminate. }
  assert (Hcases : forall q' b, q = 2 * q' + b -> (b = 0 \/ b = 1) ->
     P / (2 * Q) = q' /\ P mod (2 * Q) = b * Q + R).
  { intros q' b Hqb Hb.
    assert (P = q' * (2 * Q) + (b * Q + R)) by nia.
    assert (0 <= b * Q + R < 2 * Q) by nia.
    split.
    - symmetry. apply (Z.div_unique P (2 * Q) q' (b * Q + R)); lia.
    - symmetry. apply (Z.mod_unique P (2 * Q) q' (b * Q + R)); lia. }
  unfold represents, shr_1.
  destruct q as [|[p|p|]|p]; try lia.
  - destruct (Hcases 0 0 ltac:(lia) ltac:(lia)) as [-> ->].
    cbn [shr_m loc_of_shr_record]. split; [reflexivity|].
    rewrite Hrs. unfold loc_of. replace (0 * Q + R) with R by lia.
    destruct (Z.eqb_spec R 0) as [->|HR0]; simpl negb; [reflexivity|].
    replace (2 * R ?= 2 * Q) with Lt; [reflexivity|].
    symmetry. apply Z.compare_lt_iff. lia.
  - (* odd 2p+1 *)
    destruct (Hcases (Z.pos p) 1 ltac:(lia) ltac:(lia)) as [-> ->].
    cbn [shr_m loc_of_shr_record]. split; [reflexivity|].
    rewrite Hrs. unfold loc_of.
    destruct (Z.eqb_spec R 0) as [->|HR0]; simpl negb.
    + destruct (Z.eqb_spec (1 * Q + 0) 0); [lia|].
      replace (2 * (1 * Q + 0) ?= 2 * Q) with Eq; [reflexivity|].
      symmetry. apply Z.compare_eq_iff. lia.
    + destruct (Z.eqb_spec (1 * Q + R) 0); [lia|].
      replace (2 * (1 * Q + R) ?= 2 * Q) with Gt; [reflexivity|].
      symmetry. apply Z.compare_gt_iff. lia.
  - destruct (Hcases (Z.pos p) 0 ltac:(lia) ltac:(lia)) as [-> ->].
    cbn [shr_m loc_of_shr_record]. split; [reflexivity|].
    rewrite Hrs. unfold loc_of. replace (0 * Q + R) with R by lia.
    destruct (Z.eqb_spec R 0) as [->|HR0]; simpl negb; [reflexivity|].
    replace (2 * R ?= 2 * Q) with Lt; [reflexivity|].
    symmetry. apply Z.compare_lt_iff. lia.
  - destruct (Hcases 0 1 ltac:(lia) ltac:(lia)) as [-> ->].
    cbn [shr_m loc_of_shr_record]. split; [reflexivity|].
    rewrite Hrs. unfold loc_of.
    destruct (Z.eqb_spec R 0) as [->|HR0]; simpl negb.
    + destruct (Z.eqb_spec (1 * Q + 0) 0); [lia|].
      replace (2 * (1 * Q + 0) ?= 2 * Q) with Eq; [reflexivity|].
      symmetry. apply Z.compare_eq_iff. lia.
    + destruct (Z.eqb_spec (1 * Q + R) 0); [lia|].
      replace (2 * (1 * Q + R) ?= 2 * Q) with Gt; [reflexivity|].
      symmetry. apply Z.compare_gt_iff. lia.
Qed.

Lemma iter_pos_shr_1_represents (P : Z) (p : positive) :
  0 <= P -> forall (mrs : shr_record) (Q : Z), 0 < Q ->
  represents mrs P Q -> represents (SpecFloat.iter_pos shr_1 p mrs) P (2 ^ Z.pos p * Q).
Proof.
  intros HP. induction p as [p IH|p IH|]; intros mrs Q HQ H; cbn [iter_pos].
  - assert (E : 2 ^ Z.pos p~1 * Q = 2 ^ Z.pos p * (2 ^ Z.pos p * (2 * Q))).
    { replace (Z.pos p~1) with (Z.pos p + Z.pos p + 1) by lia.
      rewrite !Z.pow_add_r by lia. change (2 ^ 1) with 2. ring. }
    rewrite E.
    assert (0 < 2 ^ Z.pos p) by (apply Z.pow_pos_nonneg; lia).
    apply IH; [nia|]. apply IH; [lia|]. by apply shr_1_represents.
  - assert (E : 2 ^ Z.pos p~0 * Q = 2 ^ Z.pos p * (2 ^ Z.pos p * Q)).
    { replace (Z.pos p~0) with (Z.pos p + Z.pos p) by lia.
      rewrite !Z.pow_add_r by lia. ring. }
    rewrite E.
    assert (0 < 2 ^ Z.pos p) by (apply Z.pow_pos_nonneg; lia).
    apply IH; [nia|]. by apply IH.
  - change (2 ^ 1) with 2. by apply shr_1_represents.
Qed.

(** Shifting by [n] places, [n] possibly zero or negative (no shift). *)
Lemma shr_represents (mrs : shr_record) (P Q e n : Z) :
  0 <= P -> 0 < Q -> represents mrs P Q ->
  represents (fst (shr mrs e n)) P (2 ^ Z.max n 0 * Q)
  /\ snd (shr mrs e n) = e + Z.max n 0.
Proof.
  intros HP HQ H. destruct n as [|p|p]; cbn [shr fst snd].
  - change (Z.max 0 0) with 0. rewrite Z.pow_0_r, Z.mul_1_l, Z.add_0_r. done.
  - rewrite Z.max_l by lia. split; [|done]. by apply iter_pos_shr_1_represents.
  - rewrite Z.max_r by lia. rewrite Z.pow_0_r, Z.mul_1_l, Z.add_0_r. done.
Qed.

Lemma round_nearest_even_represents (mrs : shr_record) (P Q : Z) :
  0 < Q -> represents mrs P Q ->
  round_nearest_even (shr_m mrs) (loc_of_shr_record mrs) = rne_div P Q.
Proof.
  intros HQ [-> ->]. unfold rne_div, loc_of, round_nearest_even.
  pose proof (Z.mod_pos_bound P Q HQ) as HR.
  destruct (Z.eqb_spec (P mod Q) 0) as [E|E].
  - rewrite E. destruct (Z.compare_spec (2 * 0) Q); [lia|done|lia].
  - by destruct (2 * (P mod Q) ?= Q).
Qed.

(** The rounded quotient is within one half of the quotient. *)
Lemma rne_div_error (P Q : Z) : 0 < Q ->
  - Q <= 2 * (rne_div P Q * Q - P) <= Q.
Proof.
  intros HQ. unfold rne_div.
  pose proof (Z.div_mod P Q ltac:(lia)) as HPQ.
  pose proof (Z.mod_pos_bound P Q HQ) as HR.
  destruct (Z.compare_spec (2 * (P mod Q)) Q) as [E|E|E];
    [destruct (Z.even (P / Q))| |]; nia.
Qed.

Lemma rne_div_bounds (P Q L U : Z) : 0 < Q ->
  L * Q <= P -> P <= U * Q -> L <= rne_div P Q <= U.
Proof.
  intros HQ HL HU. unfold rne_div.
  pose proof (Z.div_mod P Q ltac:(lia)) as HPQ.
  pose proof (Z.mod_pos_bound P Q HQ) as HR.
  assert (L <= P / Q) by (apply Z.div_le_lower_bound; lia).
  assert (P / Q <= U) by (apply Z.div_le_upper_bound; lia).
  assert (0 < P mod Q -> P / Q < U) by nia.
  destruct (Z.compare_spec (2 * (P mod Q)) Q) as [E|E|E];
    [destruct (Z.even (P / Q))| |]; lia.
Qed.

(** On a multiple the quotient is exact. *)
Lemma rne_div_exact (n Q : Z) : 0 < Q -> rne_div (n * Q) Q = n.
Proof.
  intros HQ. unfold rne_div. rewrite Z.div_mul, Z.mod_mul by lia.
  destruct (Z.compare_spec (2 * 0) Q); [lia|done|lia].
Qed.

Lemma fexp_normal (e : Z) : -1074 <= e - 53 -> fexp prec emax e = e - 53.
Proof. unfold fexp, emin, prec, emax. lia. Qed.

(** Rounding to binary64 of the value (P / Q) * 2^ex, when its integer part
    has at least 53 digits and the result is not subnormal. *)
Lemma binary_round_aux_normal (sx : bool) (P Q ex : Z) :
  0 <= P -> 0 < Q -> 53 <= Zdigits2 (P / Q) ->
  -1074 <= ex + Zdigits2 (P / Q) - 53 ->
  let k := Zdigits2 (P / Q) - 53 in
  let m1 := rne_div P (2 ^ k * Q) in
  let e1 := ex + k in
  2 ^ 52 <= m1 <= 2 ^ 53 /\
  binary_round_aux prec emax sx (P / Q) ex (loc_of (P mod Q) Q) =
    if m1 <? 2 ^ 53
    then (if e1 <=? 971 then S754_finite sx (Z.to_pos m1) e1
          else S754_infinity sx)
    else (if e1 + 1 <=? 971 then S754_finite sx (Z.to_pos (2 ^ 52)) (e1 + 1)
          else S754_infinity sx).
Proof.
  intros HP HQ Hd Hmin k m1 e1.
  assert (Hmx : 0 < P / Q).
  { pose proof (Z.div_pos P Q HP HQ). destruct (P / Q); simpl in Hd; lia. }
  destruct (Zdigits2_bounds (P / Q) Hmx) as [Hlo Hhi].
  assert (Hk : 0 <= k) by (unfold k; lia).
  assert (H2k : 0 < 2 ^ k) by (apply Z.pow_pos_nonneg; lia).
  assert (Hlo' : 2 ^ 52 * 2 ^ k <= P / Q).
  { rewrite <- Z.pow_add_r by lia.
    replace (52 + k) with (Zdigits2 (P / Q) - 1) by (unfold k; lia). done. }
  assert (Hhi' : P / Q + 1 <= 2 ^ 53 * 2 ^ k).
  { rewrite <- Z.pow_add_r by lia.
    replace (53 + k) with (Zdigits2 (P / Q)) by (unfold k; lia). lia. }
  pose proof (Z.div_mod P Q ltac:(lia)) as HPQ.
  pose proof (Z.mod_pos_bound P Q HQ) as HR.
  assert (Hm1 : 2 ^ 52 <= m1 <= 2 ^ 53).
  { apply rne_div_bounds; [nia|nia|nia]. }
  split; [exact Hm1|].
  unfold binary_round_aux, shr_fexp.
  rewrite fexp_normal by lia.
  replace (Zdigits2 (P / Q) + ex - 53 - ex) with k by (unfold k; lia).
  destruct (shr_represents (shr_record_of_loc (P / Q) (loc_of (P mod Q) Q))
              P Q ex k HP HQ (represents_of_loc P Q)) as [Hrep He].
  destruct (shr (shr_record_of_loc (P / Q) (loc_of (P mod Q) Q)) ex k)
    as [mrs' e'].
  cbn [fst snd] in Hrep, He. rewrite Z.max_l in Hrep, He by lia.
  rewrite (round_nearest_even_represents mrs' P (2 ^ k * Q)) by (done || nia).
  fold m1. subst e'. fold e1.
  assert (He1 : -1074 <= e1) by (unfold e1, k; lia).
  destruct (Z.ltb_spec m1 (2 ^ 53)) as [Hlt|Hge].
  - rewrite (Zdigits2_unique m1 53) by (change (53 - 1) with 52; lia).
    rewrite fexp_normal by lia.
    replace (53 + e1 - 53 - e1) with 0 by lia.
    cbn [shr shr_record_of_loc shr_m].
    change (971) with (emax - prec) at 1.
    destruct m1 as [|m|m]; try lia. reflexivity.
  - assert (Em : m1 = 2 ^ 53) by lia. rewrite Em.
    change (Zdigits2 (2 ^ 53)) with 54.
    rewrite fexp_normal by lia.
    replace (54 + e1 - 53 - e1) with 1 by lia.
    reflexivity.
Qed.

(** ** The value of a double, as a rational *)

Lemma pow2_pos (e : Z) : (0 < pow2 e)%Q.
Proof. apply Qpower_0_lt. reflexivity. Qed.

Lemma pow2_add (a b : Z) : (pow2 (a + b) == pow2 a * pow2 b)%Q.
Proof. apply Qpower_plus. discriminate. Qed.

Lemma pow2_Z (k : Z) : 0 <= k -> (pow2 k == inject_Z (2 ^ k))%Q.
Proof. intros Hk. unfold pow2. by rewrite Zpower_Qpower. Qed.

Lemma pow2_le (a b : Z) : a <= b -> (pow2 a <= pow2 b)%Q.
Proof.
  intros H.
  pose proof (pow2_add a (b - a)) as E.
  replace (a + (b - a)) with b in E by lia.
  pose proof (pow2_Z (b - a) ltac:(lia)) as E'.
  assert (1 <= 2 ^ (b - a)) by (pose proof (Z.pow_pos_nonneg 2 (b - a)); lia).
  pose proof (pow2_pos a).
  assert (inject_Z 1 <= inject_Z (2 ^ (b - a)))%Q by (rewrite <- Zle_Qle; done).
  change (inject_Z 1) with 1%Q in *.
  nra.
Qed.

Lemma inject_Z_le (a b : Z) : a <= b -> (inject_Z a <= inject_Z b)%Q.
Proof. by rewrite <- Zle_Qle. Qed.

Lemma inject_Z_lt (a b : Z) : a < b -> (inject_Z a < inject_Z b)%Q.
Proof. by rewrite <- Zlt_Qlt. Qed.

(** The rounded mantissa is within half a unit of the value, on the scale
    of the result. *)
Lemma rne_div_scaled (P D ex k : Z) (v : Q) :
  0 < D -> 0 <= k ->
  (v * inject_Z D == inject_Z P * pow2 ex)%Q ->
  let m1 := rne_div P (2 ^ k * D) in
  (inject_Z (2 * m1 - 1) * pow2 (ex + k) <= 2 * v)%Q
  /\ (2 * v <= inject_Z (2 * m1 + 1) * pow2 (ex + k))%Q.
Proof.
  intros HD Hk Hv m1.
  assert (H2k : 0 < 2 ^ k) by (apply Z.pow_pos_nonneg; lia).
  pose proof (rne_div_error P (2 ^ k * D) ltac:(nia)) as Herr. fold m1 in Herr.
  assert (Hlo : (2 * m1 - 1) * (2 ^ k * D) <= 2 * P) by nia.
  assert (Hhi : 2 * P <= (2 * m1 + 1) * (2 ^ k * D)) by nia.
  apply inject_Z_le in Hlo, Hhi.
  rewrite !inject_Z_mult in Hlo, Hhi.
  change (inject_Z 2) with 2%Q in *.
  pose proof (pow2_add ex k) as Ee.
  pose proof (pow2_Z k Hk) as Ek.
  pose proof (pow2_pos ex) as HE.
  pose proof (inject_Z_lt 0 D HD) as HQq. change (inject_Z 0) with 0%Q in HQq.
  set (E := pow2 ex) in *. set (K := inject_Z (2 ^ k)) in *.
  set (Qq := inject_Z D) in *. set (Pq := inject_Z P) in *.
  set (A := inject_Z (2 * m1 - 1)) in *. set (B := inject_Z (2 * m1 + 1)) in *.
  assert (Hlo' : (A * K * Qq * E <= 2 * Pq * E)%Q) by nra.
  assert (Hhi' : (2 * Pq * E <= B * K * Qq * E)%Q) by nra.
  split.
  - apply (Qmult_le_r _ _ Qq HQq). rewrite Ee, Ek. nra.
  - apply (Qmult_le_r _ _ Qq HQq). rewrite Ee, Ek. nra.
Qed.

Lemma pow2_succ (e : Z) : (pow2 (e + 1) == 2 * pow2 e)%Q.
Proof. rewrite pow2_add. change (pow2 1) with 2%Q. ring. Qed.

Lemma pow2_1023 (e : Z) : 972 <= e -> (pow2 1023 <= inject_Z (2 ^ 51) * pow2 e)%Q.
Proof.
  intros H. pose proof (pow2_le 972 e H) as Hle.
  pose proof (pow2_add 972 51) as E. change (972 + 51) with 1023 in E.
  pose proof (pow2_Z 51 ltac:(lia)) as E'.
  pose proof (pow2_pos 972).
  assert (0 < inject_Z (2 ^ 51))%Q by (apply (inject_Z_lt 0); lia).
  rewrite E, E'. nra.
Qed.

(** The result of [binary_round_aux] on a value whose integer part has at
    least 53 digits, away from the subnormal range. *)
Lemma binary_round_aux_rounds (P D ex : Z) (v : Q) :
  0 <= P -> 0 < D -> 53 <= Zdigits2 (P / D) ->
  -1074 <= ex + Zdigits2 (P / D) - 53 ->
  (v * inject_Z D == inject_Z P * pow2 ex)%Q ->
  rounds_to v (binary_round_aux prec emax false (P / D) ex (loc_of (P mod D) D)).
Proof.
  intros HP HD Hd Hmin Hv.
  destruct (binary_round_aux_normal false P D ex HP HD Hd Hmin) as [Hm1 ->].
  set (k := Zdigits2 (P / D) - 53) in *.
  assert (Hk : 0 <= k) by (unfold k; lia).
  destruct (rne_div_scaled P D ex k v HD Hk Hv) as [Hlo Hhi].
  set (m1 := rne_div P (2 ^ k * D)) in *.
  set (e1 := ex + k) in *.
  assert (He1 : -1074 <= e1) by (unfold e1, k; lia).
  pose proof (pow2_pos e1) as HT.
  destruct (Z.ltb_spec m1 (2 ^ 53)) as [Hlt|Hge].
  - destruct (Z.leb_spec e1 971) as [Hle|Hgt].
    + unfold rounds_to. rewrite Z2Pos.id by lia. done.
    + unfold rounds_to.
      pose proof (pow2_1023 e1 ltac:(lia)) as H1023.
      assert (Hm : (inject_Z (2 * 2 ^ 51) <= inject_Z (2 * m1 - 1))%Q)
        by (apply inject_Z_le; lia).
      rewrite inject_Z_mult in Hm. change (inject_Z 2) with 2%Q in Hm.
      assert (0 < inject_Z (2 ^ 51))%Q by (apply (inject_Z_lt 0); lia).
      nra.
  - assert (Em : m1 = 2 ^ 53) by lia.
    destruct (Z.leb_spec (e1 + 1) 971) as [Hle|Hgt].
    + unfold rounds_to. rewrite Z2Pos.id by lia.
      split; [lia|]. split; [lia|].
      pose proof (pow2_succ e1) as Es. rewrite Em in Hlo, Hhi.
      change (inject_Z (2 * 2 ^ 53 - 1)) with 18014398509481983%Q in Hlo.
      change (inject_Z (2 * 2 ^ 53 + 1)) with 18014398509481985%Q in Hhi.
      change (inject_Z (2 * 2 ^ 52 - 1)) with 9007199254740991%Q.
      change (inject_Z (2 * 2 ^ 52 + 1)) with 9007199254740993%Q.
      rewrite Es. split; nra.
    + unfold rounds_to.
      pose proof (pow2_1023 (e1 + 1) ltac:(lia)) as H1023.
      pose proof (pow2_succ e1) as Es. rewrite Em in Hlo.
      change (inject_Z (2 * 2 ^ 53 - 1)) with 18014398509481983%Q in Hlo.
      change (inject_Z (2 ^ 51)) with 2251799813685248%Q in H1023.
      rewrite Es in H1023. nra.
Qed.

Lemma new_location_loc_of (nb k : Z) : 0 < nb -> new_location nb k = loc_of k nb.
Proof.
  intros Hnb. unfold new_location, new_location_even, new_location_odd, loc_of.
  destruct (Z.even nb) eqn:Ev; [done|].
  destruct (Z.eqb_spec k 0); [done|]. f_equal.
  assert (Hodd : Z.odd nb = true) by (rewrite <- Z.negb_even, Ev; done).
  apply Z.odd_spec in Hodd as [c Hc].
  destruct (Z.compare_spec (2 * k + 1) nb), (Z.compare_spec (2 * k) nb);
    try done; lia.
Qed.

Lemma Zdigits2_lower (m n : Z) : 0 < n -> 2 ^ (n - 1) <= m -> n <= Zdigits2 m.
Proof.
  intros Hn H.
  assert (Hm : 0 < m) by (pose proof (Z.pow_pos_nonneg 2 (n - 1)); lia).
  destruct (Zdigits2_bounds m Hm) as [_ Hu].
  destruct (Z.le_gt_cases n (Zdigits2 m)) as [|Hlt]; [done|].
  assert (2 ^ Zdigits2 m <= 2 ^ (n - 1)).
  { apply Z.pow_le_mono_r; [lia|]. lia. }
  lia.
Qed.

Lemma Zdigits2_upper (m n : Z) : 0 < m -> m < 2 ^ n -> Zdigits2 m <= n.
Proof.
  intros Hm H.
  destruct (Zdigits2_bounds m Hm) as [Hl _].
  destruct (Z.le_gt_cases (Zdigits2 m) n) as [|Hlt]; [done|].
  assert (0 <= n).
  { destruct (Z.le_gt_cases 0 n); [done|]. rewrite Z.pow_neg_r in H; lia. }
  assert (2 ^ n <= 2 ^ (Zdigits2 m - 1)).
  { apply Z.pow_le_mono_r; lia. }
  lia.
Qed.

(** The quotient and the location handed to the rounding by the division
    of two positive integers. *)
Lemma SFdiv_core_binary_int (a b : Z) :
  0 < a -> 0 < b -> b < 2 ^ 1000 ->
  let e' := Z.min (Zdigits2 a - Zdigits2 b - 53) 0 in
  let P := a * 2 ^ (- e') in
  SFdiv_core_binary prec emax a 0 b 0 = (P / b, e', loc_of (P mod b) b).
Proof.
  intros Ha Hb Hb' e' P.
  pose proof (Zdigits2_upper b 1000 Hb Hb') as Hd2.
  pose proof (Zdigits2_lower a 1 ltac:(lia) ltac:(simpl; lia)) as Hd1.
  unfold SFdiv_core_binary.
  rewrite !Z.add_0_r. change (0 - 0) with 0.
  rewrite fexp_normal by lia. fold e'.
  assert (He' : e' <= 0) by (unfold e'; lia).
  assert (Hm' : match 0 - e' with
                | 0 => a
                | Z.pos _ => Z.shiftl a (0 - e')
                | Z.neg _ => 0
                end = P).
  { unfold P. replace (0 - e') with (- e') by lia.
    destruct (- e') as [|p|p] eqn:E; [| |lia].
    - rewrite Z.pow_0_r. lia.
    - rewrite Z.shiftl_mul_pow2 by lia. done. }
  rewrite Hm'.
  pose proof (Z.div_eucl_eq P b ltac:(lia)) as Heq.
  unfold Z.div, Z.modulo.
  destruct (Z.div_eucl P b) as [q r].
  by rewrite new_location_loc_of.
Qed.

(** [a / b] of two positive integers, [b] below [2^1000]: the nearest
    double, or an overflow. *)
Lemma SFdiv_int_rounds (a b : Z) (v : Q) :
  0 < a -> 0 < b -> b < 2 ^ 1000 ->
  (v * inject_Z b == inject_Z a)%Q ->
  rounds_to v (SFdiv prec emax (exact_int a) (exact_int b)).
Proof.
  intros Ha Hb Hb' Hv.
  destruct a as [|pa|pa]; [lia| |lia]. destruct b as [|pb|pb]; [lia| |lia].
  cbn [exact_int SFdiv xorb].
  rewrite (SFdiv_core_binary_int (Z.pos pa) (Z.pos pb) Ha Hb Hb').
  set (e' := Z.min (Zdigits2 (Z.pos pa) - Zdigits2 (Z.pos pb) - 53) 0).
  set (P := Z.pos pa * 2 ^ (- e')).
  pose proof (Zdigits2_upper (Z.pos pb) 1000 Hb Hb') as Hd2.
  pose proof (Zdigits2_lower (Z.pos pa) 1 ltac:(lia) ltac:(simpl; lia)) as Hd1.
  pose proof (Zdigits2_lower (Z.pos pb) 1 ltac:(lia) ltac:(simpl; lia)) as Hd2'.
  destruct (Zdigits2_bounds (Z.pos pa) Ha) as [Hal Hau].
  destruct (Zdigits2_bounds (Z.pos pb) Hb) as [Hbl Hbu].
  assert (He' : e' <= 0) by (unfold e'; lia).
  assert (He'lo : -1052 <= e') by (unfold e'; lia).
  assert (H2e : 0 < 2 ^ (- e')) by (apply Z.pow_pos_nonneg; lia).
  assert (HP : 2 ^ 52 * Z.pos pb <= P).
  { unfold P.
    assert (2 ^ 52 * 2 ^ Zdigits2 (Z.pos pb)
            <= 2 ^ (Zdigits2 (Z.pos pa) - 1) * 2 ^ (- e')).
    { rewrite <- !Z.pow_add_r by lia. apply Z.pow_le_mono_r; [lia|].
      unfold e'. lia. }
    nia. }
  assert (Hq : 2 ^ 52 <= P / Z.pos pb) by (apply Z.div_le_lower_bound; lia).
  pose proof (Zdigits2_lower (P / Z.pos pb) 53 ltac:(lia) Hq) as Hd.
  apply binary_round_aux_rounds; [lia|lia|done|lia|].
  unfold P. rewrite inject_Z_mult, Hv.
  pose proof (pow2_add (- e') e') as E. replace (- e' + e') with 0 in E by lia.
  change (pow2 0) with 1%Q in E.
  rewrite <- (pow2_Z (- e')) by lia.
  rewrite <- Qmult_assoc, <- E. ring.
Qed.

Lemma float_of_int_200 :
  float_of_int 200 = S754_finite false 7036874417766400 (-45).
Proof. reflexivity. Qed.

(** The product of a normal double with [200.0]: the nearest double to the
    exact product, or an overflow. *)
Lemma SFmul_200_rounds (m : positive) (e : Z) :
  2 ^ 52 <= Z.pos m -> -1074 <= e ->
  rounds_to (200 * (inject_Z (Z.pos m) * pow2 e))
    (SFmul prec emax (S754_finite false m e) (float_of_int 200)).
Proof.
  intros Hm He. rewrite float_of_int_200. cbn [SFmul xorb].
  set (P := Z.pos (m * 7036874417766400)).
  assert (EP : P = Z.pos m * 7036874417766400) by (unfold P; lia).
  assert (Hq : 2 ^ 104 <= P) by (rewrite EP; lia).
  pose proof (Zdigits2_lower P 105 ltac:(lia) Hq) as Hd.
  pose proof (binary_round_aux_rounds P 1 (e + -45)
                (200 * (inject_Z (Z.pos m) * pow2 e))) as H.
  rewrite Z.div_1_r, Z.mod_1_r in H. change (loc_of 0 1) with loc_Exact in H.
  apply H; [lia|lia|lia|lia|].
  rewrite EP, inject_Z_mult. rewrite pow2_add.
  change (pow2 (-45)) with (1 # 35184372088832)%Q.
  change (inject_Z 1) with 1%Q.
  change (inject_Z 7036874417766400) with 7036874417766400%Q.
  field.
Qed.

Lemma round_half_even_rne (m : positive) (k : positive) :
  round_half_even m (Z.neg k) = rne_div (Z.pos m) (2 ^ Z.pos k).
Proof. unfold round_half_even, rne_div. by rewrite Z.pow_pos_fold. Qed.

(** [round] of a positive finite double is within one half of it. *)
Lemma round_half_even_error (m : positive) (e : Z) :
  let n := round_half_even m e in
  (inject_Z (2 * n - 1) <= 2 * (inject_Z (Z.pos m) * pow2 e))%Q
  /\ (2 * (inject_Z (Z.pos m) * pow2 e) <= inject_Z (2 * n + 1))%Q.
Proof.
  destruct e as [|p|k]; intros n.
  - unfold n, round_half_even. change (pow2 0) with 1%Q.
    rewrite Z.pow_0_r, Z.mul_1_r.
    assert (H1 : (inject_Z (2 * Z.pos m - 1) <= inject_Z (2 * Z.pos m))%Q)
      by (apply inject_Z_le; lia).
    assert (H2 : (inject_Z (2 * Z.pos m) <= inject_Z (2 * Z.pos m + 1))%Q)
      by (apply inject_Z_le; lia).
    rewrite inject_Z_mult in H1, H2. change (inject_Z 2) with 2%Q in *.
    split; lra.
  - unfold n, round_half_even.
    pose proof (pow2_Z (Z.pos p) ltac:(lia)) as E.
    assert (H1 : (inject_Z (2 * (Z.pos m * 2 ^ Z.pos p) - 1)
                  <= inject_Z (2 * (Z.pos m * 2 ^ Z.pos p)))%Q)
      by (apply inject_Z_le; lia).
    assert (H2 : (inject_Z (2 * (Z.pos m * 2 ^ Z.pos p))
                  <= inject_Z (2 * (Z.pos m * 2 ^ Z.pos p) + 1))%Q)
      by (apply inject_Z_le; lia).
    rewrite !inject_Z_mult in H1, H2. change (inject_Z 2) with 2%Q in *.
    rewrite E. split; lra.
  - unfold n. rewrite round_half_even_rne.
    assert (Hv : (inject_Z (Z.pos m) * pow2 (Z.neg k) * inject_Z 1
                  == inject_Z (Z.pos m) * pow2 (Z.neg k))%Q)
      by (change (inject_Z 1) with 1%Q; ring).
    destruct (rne_div_scaled (Z.pos m) 1 (Z.neg k) (Z.pos k)
                (inject_Z (Z.pos m) * pow2 (Z.neg k)) ltac:(lia) ltac:(lia) Hv)
      as [Hlo Hhi].
    rewrite Z.mul_1_r in Hlo, Hhi.
    replace (Z.neg k + Z.pos k) with 0 in Hlo, Hhi by lia.
    change (pow2 0) with 1%Q in Hlo, Hhi. split; lra.
Qed.

Lemma inject_Z_2m1 (m : Z) : (inject_Z (2 * m - 1) == 2 * inject_Z m - 1)%Q.
Proof.
  unfold Z.sub. rewrite inject_Z_plus, inject_Z_mult. reflexivity.
Qed.

Lemma inject_Z_2p1 (m : Z) : (inject_Z (2 * m + 1) == 2 * inject_Z m + 1)%Q.
Proof. rewrite inject_Z_plus, inject_Z_mult. reflexivity. Qed.

(** A normal double is within [2^-53] of the value it rounds, relative to
    itself. *)
Lemma rounds_to_relative (v : Q) (m : positive) (e : Z) :
  rounds_to v (S754_finite false m e) ->
  let V := (inject_Z (Z.pos m) * pow2 e)%Q in
  (0 < V)%Q
  /\ (9007199254740991 * V <= 9007199254740992 * v)%Q
  /\ (9007199254740992 * v <= 9007199254740993 * V)%Q.
Proof.
  intros (Hm & _ & Hlo & Hhi) V.
  rewrite inject_Z_2m1 in Hlo. rewrite inject_Z_2p1 in Hhi.
  pose proof (pow2_pos e) as HT.
  assert (HM : (4503599627370496 <= inject_Z (Z.pos m))%Q)
    by (apply (inject_Z_le (2 ^ 52)); lia).
  unfold V. set (M := inject_Z (Z.pos m)) in *. set (T := pow2 e) in *.
  assert (HMT : (0 <= (M - 4503599627370496) * T)%Q).
  { apply Qmult_le_0_compat; lra. }
  split; [nra|]. split; nra.
Qed.

Lemma Qscale_bound (t W c : Q) :
  (0 < W)%Q -> (W <= c)%Q -> (1 <= t * W)%Q -> (1 <= t * c)%Q.
Proof.
  intros HW Hc H.
  assert (0 < t)%Q.
  { destruct (Qlt_le_dec 0 t) as [|Hle]; [done|].
    assert (t * W <= 0)%Q by nra. lra. }
  nra.
Qed.

Lemma Qpos_factor (a W : Q) : (0 < W)%Q -> (0 < a * W)%Q -> (0 < a)%Q.
Proof.
  intros HW H. destruct (Qlt_le_dec 0 a) as [|Hle]; [done|].
  assert (a * W <= 0)%Q by nra. lra.
Qed.

Lemma Qnonneg_factor (a W : Q) : (0 < W)%Q -> (0 <= a * W)%Q -> (0 <= a)%Q.
Proof.
  intros HW H. destruct (Qlt_le_dec a 0) as [Hlt|]; [|done].
  assert (a * W < 0)%Q by nra. lra.
Qed.

(** The two roundings of the density, then [round]: what they leave of
    the exact density [200 * S / W]. *)
Section DensityError.
Variables v0 Vq Vd Nq Wq Sq : Q.
Hypothesis HW : (0 < Wq)%Q.
Hypothesis HW43 : (Wq <= 8796093022208)%Q.
Hypothesis HS : (v0 * Wq == Sq)%Q.
Hypothesis Hq1 : (9007199254740991 * Vq <= 9007199254740992 * v0)%Q.
Hypothesis Hq2 : (9007199254740992 * v0 <= 9007199254740993 * Vq)%Q.
Hypothesis Hd1 : (9007199254740991 * Vd <= 9007199254740992 * (200 * Vq))%Q.
Hypothesis Hd2 : (9007199254740992 * (200 * Vq) <= 9007199254740993 * Vd)%Q.
Hypothesis HN1 : (2 * Nq - 1 <= 2 * Vd)%Q.
Hypothesis HN2 : (2 * Vd <= 2 * Nq + 1)%Q.

Lemma density_below_101 : (200 * Sq < 101 * Wq)%Q -> (200 * v0 < 101)%Q.
Proof.
  intros H. rewrite <- HS in H.
  assert (0 < (101 - 200 * v0) * Wq)%Q by lra.
  pose proof (Qpos_factor _ _ HW H0). lra.
Qed.

Lemma density_above_101 : (101 * Wq <= 200 * Sq)%Q -> (101 <= 200 * v0)%Q.
Proof.
  intros H. rewrite <- HS in H.
  assert (0 <= (200 * v0 - 101) * Wq)%Q by lra.
  pose proof (Qnonneg_factor _ _ HW H0). lra.
Qed.

Lemma round_not_below :
  (200 * Sq < 101 * Wq)%Q -> (1 <= 400 * Sq - (2 * Nq + 1) * Wq)%Q -> False.
Proof.
  intros Hx H. pose proof (density_below_101 Hx) as Hx'.
  rewrite <- HS in H.
  assert (Ht : (1 <= (400 * v0 - (2 * Nq + 1)) * Wq)%Q) by lra.
  pose proof (Qscale_bound _ _ _ HW HW43 Ht) as Ht'.
  lra.
Qed.

Lemma round_not_above :
  (200 * Sq < 101 * Wq)%Q -> (1 <= (2 * Nq - 1) * Wq - 400 * Sq)%Q -> False.
Proof.
  intros Hx H. pose proof (density_below_101 Hx) as Hx'.
  rewrite <- HS in H.
  assert (Ht : (1 <= ((2 * Nq - 1) - 400 * v0) * Wq)%Q) by lra.
  pose proof (Qscale_bound _ _ _ HW HW43 Ht) as Ht'.
  lra.
Qed.

Lemma round_clamped : (101 * Wq <= 200 * Sq)%Q -> (100 < Nq)%Q.
Proof.
  intros Hx. pose proof (density_above_101 Hx) as Hx'. lra.
Qed.
End DensityError.

Lemma rounds_to_cases (v : Q) (f : spec_float) :
  rounds_to v f ->
  (exists m e, f = S754_finite false m e) \/ (f = S754_infinity false /\ (pow2 1023 <= v)%Q).
Proof.
  destruct f as [s|[]| |[] m e]; cbn; try done; eauto.
Qed.

(** With no slang at all the score is 0. *)
Lemma score_no_slang (w : Z) : calculate_gen_z_score 0 w = Ok 0.
Proof.
  unfold calculate_gen_z_score, int_true_divide.
  destruct (Z.eqb_spec w 0) as [->|Hw]; [done|].
  destruct w; [done| |]; reflexivity.
Qed.

(** For a slang count below [2^1000] and a word count of at most [2^43]
    the score is the clamp of an integer nearest to the exact density. *)
Lemma score_nearest (s w : Z) :
  0 <= s < 2 ^ 1000 -> 0 < w <= 2 ^ 43 ->
  exists n, calculate_gen_z_score s w = Ok (Z.min 100 n)
            /\ - w <= 2 * (n * w - 200 * s) <= w.
Proof.
  intros [Hs0 Hs] [Hw0 Hw].
  destruct (Z.eq_dec s 0) as [->|Hsn].
  { exists 0. rewrite score_no_slang. split; [done|lia]. }
  assert (Hspos : 0 < s) by lia.
  set (v0 := (inject_Z s / inject_Z w)%Q).
  pose proof (inject_Z_lt 0 w Hw0) as HWq. change (inject_Z 0) with 0%Q in HWq.
  assert (Hv0 : (v0 * inject_Z w == inject_Z s)%Q).
  { unfold v0. field. lra. }
  assert (HW43 : (inject_Z w <= 8796093022208)%Q)
    by (apply (inject_Z_le w (2 ^ 43)); lia).
  assert (HS1000 : (inject_Z s <= inject_Z (2 ^ 1000))%Q)
    by (apply inject_Z_le; lia).
  assert (HW1 : (1 <= inject_Z w)%Q) by (apply (inject_Z_le 1); lia).
  assert (Hv0s : (v0 <= inject_Z s)%Q).
  { assert (0 <= inject_Z s)%Q by (apply (inject_Z_le 0); lia).
    assert (0 <= v0)%Q.
    { apply (Qnonneg_factor _ (inject_Z w)); lra. }
    nra. }
  pose proof (pow2_Z 1000 ltac:(lia)) as E1000.
  pose proof (pow2_add 1000 23) as E1023. change (1000 + 23) with 1023 in E1023.
  change (pow2 23) with 8388608%Q in E1023.
  pose proof (pow2_pos 1000) as HP1000.
  pose proof (SFdiv_int_rounds s w v0 Hspos Hw0
                ltac:(assert (2 ^ 43 < 2 ^ 1000) by (apply Z.pow_lt_mono_r; lia); lia)
                Hv0) as Hq.
  unfold calculate_gen_z_score, int_true_divide.
  destruct (Z.eqb_spec w 0) as [?|_]; [lia|].
  destruct (rounds_to_cases _ _ Hq) as [(mq & eq & Eq)|[_ Hinf]]; [|lra].
  rewrite Eq in Hq |- *.
  destruct (rounds_to_relative _ _ _ Hq) as (HVq & Hq1 & Hq2).
  destruct Hq as (Hmq & Heq & _).
  pose proof (SFmul_200_rounds mq eq ltac:(lia) ltac:(lia)) as Hd.
  set (Vq := (inject_Z (Z.pos mq) * pow2 eq)%Q) in *.
  destruct (rounds_to_cases _ _ Hd) as [(md & ed & Ed)|[_ Hinf]]; [|lra].
  rewrite Ed in Hd |- *.
  destruct (rounds_to_relative _ _ _ Hd) as (HVd & Hd1 & Hd2).
  set (Vd := (inject_Z (Z.pos md) * pow2 ed)%Q) in *.
  cbn [float_round cond_Zopp].
  destruct (round_half_even_error md ed) as [HN1 HN2].
  set (N := round_half_even md ed) in *. fold Vd in HN1, HN2.
  rewrite inject_Z_2m1 in HN1. rewrite inject_Z_2p1 in HN2.
  destruct (Z.lt_ge_cases (200 * s) (101 * w)) as [Hlt|Hge].
  - exists N. split; [done|].
    assert (Hx : (200 * inject_Z s < 101 * inject_Z w)%Q).
    { pose proof (inject_Z_lt _ _ Hlt) as H. rewrite !inject_Z_mult in H.
      exact H. }
    split.
    + destruct (Z.le_gt_cases (- w) (2 * (N * w - 200 * s))) as [|Hbad]; [done|].
      exfalso.
      apply (round_not_below v0 Vq Vd (inject_Z N) (inject_Z w) (inject_Z s));
        try done.
      assert (Hz : 1 <= 400 * s - (2 * N + 1) * w) by lia.
      apply inject_Z_le in Hz. unfold Z.sub in Hz.
      rewrite inject_Z_plus, inject_Z_opp, !inject_Z_mult, inject_Z_plus,
        inject_Z_mult in Hz.
      exact Hz.
    + destruct (Z.le_gt_cases (2 * (N * w - 200 * s)) w) as [|Hbad]; [done|].
      exfalso.
      apply (round_not_above v0 Vq Vd (inject_Z N) (inject_Z w) (inject_Z s));
        try done.
      assert (Hz : 1 <= (2 * N + - (1)) * w + - (400 * s)) by lia.
      apply inject_Z_le in Hz.
      rewrite inject_Z_plus, inject_Z_opp, !inject_Z_mult, inject_Z_plus,
        inject_Z_mult in Hz.
      exact Hz.
  - exists (rne_div (200 * s) w).
    assert (Hx : (101 * inject_Z w <= 200 * inject_Z s)%Q).
    { pose proof (inject_Z_le _ _ Hge) as H. rewrite !inject_Z_mult in H.
      exact H. }
    pose proof (round_clamped v0 Vq Vd (inject_Z N) (inject_Z w) (inject_Z s)
                  HWq Hv0 Hq2 Hd2 HN2 Hx) as HN.
    assert (HNz : 100 < N) by (rewrite Zlt_Qlt; exact HN).
    pose proof (rne_div_error (200 * s) w Hw0) as Herr.
    assert (Hn : 100 <= rne_div (200 * s) w).
    { apply (rne_div_bounds (200 * s) w 100 (200 * s)); [lia|lia|nia]. }
    split; [|lia]. f_equal. lia.
Qed.

(** ** The score, on inputs far from the limits of a double *)

(** C3, amended: at a density of an integer [k] plus one half the score
    is the clamp of [k] or of [k + 1], and not always of the upper one: it
    is what [round] makes of the computed double. Whenever the computed
    double is the half [k + 1/2] itself, the score is the clamp of the even
    one of [k] and [k + 1]: down at 0.5, 2.5 and 4.5, up at 1.5 and 37.5.
    Where the double misses the half, its error decides: 57.5 is computed
    just below and gives 57, 54.5 just above and gives 55. *)
Theorem score_half_density :
  (forall s w k : Z,
     0 <= s < 2 ^ 1000 -> 0 < w <= 2 ^ 43 ->
     400 * s = (2 * k + 1) * w ->
     calculate_gen_z_score s w = Ok (Z.min 100 k)
     \/ calculate_gen_z_score s w = Ok (Z.min 100 (k + 1)))
  /\ (forall (s w k : Z) (q : spec_float) (m j : positive),
        w <> 0 -> 0 <= k ->
        int_true_divide s w = Ok q ->
        SFmul prec emax q (float_of_int 200)
        = S754_finite false m (Z.neg j) ->
        2 * Z.pos m = (2 * k + 1) * 2 ^ Z.pos j ->
        calculate_gen_z_score s w
        = Ok (Z.min 100 (if Z.even k then k else k + 1)))
  /\ calculate_gen_z_score 1 400 = Ok 0
  /\ calculate_gen_z_score 5 400 = Ok 2
  /\ calculate_gen_z_score 9 400 = Ok 4
  /\ calculate_gen_z_score 3 400 = Ok 2
  /\ calculate_gen_z_score 3 16 = Ok 38
  /\ calculate_gen_z_score 23 80 = Ok 57
  /\ calculate_gen_z_score 109 400 = Ok 55.
Proof.
  split; [|split].
  - intros s w k Hs Hw Hhalf.
    destruct (score_nearest s w Hs Hw) as (n & E & Hn).
    assert (Hk : n = k \/ n = k + 1) by nia.
    destruct Hk as [->| ->]; [by left|by right].
  - intros s w k q m j Hw Hk Hq Hmul Hhalf.
    unfold calculate_gen_z_score.
    destruct (Z.eqb_spec w 0) as [E|_]; [done|].
    rewrite Hq. cbn zeta. rewrite Hmul.
    by rewrite (float_round_half m j k Hk Hhalf).
  - vm_compute. repeat split; reflexivity.
Qed.

Lemma score_half_density_witness :
  (calculate_gen_z_score 9 400 = Ok (Z.min 100 4)
   \/ calculate_gen_z_score 9 400 = Ok (Z.min 100 (4 + 1)))
  /\ calculate_gen_z_score 9 400
     = Ok (Z.min 100 (if Z.even 4 then 4 else 4 + 1))
  /\ calculate_gen_z_score 3 16
     = Ok (Z.min 100 (if Z.even 37 then 37 else 37 + 1)).
Proof.
  destruct score_half_density as (H1 & H2 & _). split; [|split].
  - apply (H1 9 400 4); [split; [lia|reflexivity]|lia|reflexivity].
  - eapply (H2 9 400 4); [lia|lia|reflexivity|reflexivity|reflexivity].
  - eapply (H2 3 16 37); [lia|lia|reflexivity|reflexivity|reflexivity].
Defined.

(** X1: for a slang count below 2^1000 and a positive word count of at most
    2^43 the score is returned, and it is an integer nearest to the exact
    density [200 * s / w], clamped to 100. *)
Theorem score_clamped_nearest (s w : Z)
    (Hs : 0 <= s < 2 ^ 1000) (Hw : 0 < w <= 2 ^ 43) :
  exists n, calculate_gen_z_score s w = Ok (Z.min 100 n)
            /\ - w <= 2 * (n * w - 200 * s) <= w.
Proof. by apply score_nearest. Qed.

Lemma score_clamped_nearest_witness :
  exists n, calculate_gen_z_score 5 100 = Ok (Z.min 100 n)
            /\ - 100 <= 2 * (n * 100 - 200 * 5) <= 100.
Proof.
  apply (score_clamped_nearest 5 100); split; try lia; reflexivity.
Defined.

(** X2: on these inputs the score never raises and lies between 0 and
    100. *)
Theorem score_in_range (s w : Z)
    (Hs : 0 <= s < 2 ^ 1000) (Hw : 0 < w <= 2 ^ 43) :
  exists r, calculate_gen_z_score s w = Ok r /\ 0 <= r <= 100.
Proof.
  destruct (score_nearest s w Hs Hw) as (n & E & Hn).
  exists (Z.min 100 n). split; [done|]. nia.
Qed.

Lemma score_in_range_witness :
  exists r, calculate_gen_z_score 7 3 = Ok r /\ 0 <= r <= 100.
Proof. apply (score_in_range 7 3); split; try lia; reflexivity. Defined.

(** X3: on these inputs, for a fixed word count, more slang never gives a
    smaller score. *)
Theorem score_monotone (s1 s2 w : Z)
    (Hs1 : 0 <= s1) (Hs : s1 <= s2) (Hs2 : s2 < 2 ^ 1000)
    (Hw : 0 < w <= 2 ^ 43) :
  exists r1 r2, calculate_gen_z_score s1 w = Ok r1
                /\ calculate_gen_z_score s2 w = Ok r2 /\ r1 <= r2.
Proof.
  destruct (Z.eq_dec s1 s2) as [->|Hne].
  - destruct (score_nearest s2 w ltac:(lia) Hw) as (n & E & _).
    exists (Z.min 100 n), (Z.min 100 n). by rewrite E.
  - destruct (score_nearest s1 w ltac:(lia) Hw) as (n1 & E1 & Hn1).
    destruct (score_nearest s2 w ltac:(lia) Hw) as (n2 & E2 & Hn2).
    exists (Z.min 100 n1), (Z.min 100 n2). split; [done|]. split; [done|].
    assert (n1 <= n2) by nia. lia.
Qed.

Lemma score_monotone_witness :
  exists r1 r2, calculate_gen_z_score 3 400 = Ok r1
                /\ calculate_gen_z_score 5 400 = Ok r2 /\ r1 <= r2.
Proof.
  apply (score_monotone 3 5 400); try lia; try reflexivity.
Defined.

(** X5: on these inputs, when the density [200 * s / w] is a whole number
    the score is that number, clamped to 100. *)
Theorem score_exact_density (s w k : Z)
    (Hs : 0 <= s < 2 ^ 1000) (Hw : 0 < w <= 2 ^ 43)
    (Hk : 200 * s = k * w) :
  calculate_gen_z_score s w = Ok (Z.min 100 k).
Proof.
  destruct (score_nearest s w Hs Hw) as (n & E & Hn).
  rewrite E. f_equal. f_equal. nia.
Qed.

Lemma score_exact_density_witness : calculate_gen_z_score 5 100 = Ok 10.
Proof.
  apply (score_exact_density 5 100 10); try reflexivity; split; try lia;
    reflexivity.
Defined.

(** X6: on these inputs a density above 99.5, in particular slang on half
    of the words or more, gives the full score of 100; a density below 99.5
    gives less. *)
Theorem score_saturates (s w : Z)
    (Hs : 0 <= s < 2 ^ 1000) (Hw : 0 < w <= 2 ^ 43) :
  (199 * w < 400 * s -> calculate_gen_z_score s w = Ok 100)
  /\ (w <= 2 * s -> calculate_gen_z_score s w = Ok 100)
  /\ (400 * s < 199 * w ->
      exists r, calculate_gen_z_score s w = Ok r /\ r < 100).
Proof.
  destruct (score_nearest s w Hs Hw) as (n & E & Hn).
  rewrite E. split; [|split].
  - intros H. f_equal. assert (100 <= n) by nia. lia.
  - intros H. f_equal. assert (100 <= n) by nia. lia.
  - intros H. exists (Z.min 100 n). split; [done|].
    assert (n < 100) by nia. lia.
Qed.

Lemma score_saturates_witness : calculate_gen_z_score 50 100 = Ok 100.
Proof.
  assert (Hs : 0 <= 50 < 2 ^ 1000) by (split; [lia|reflexivity]).
  assert (Hw : 0 < 100 <= 2 ^ 43) by lia.
  apply (proj1 (proj2 (score_saturates 50 100 Hs Hw))). lia.
Defined.

(** A finite double is below [2^1024 + 2^970]. *)
Lemma rounds_to_finite_bound (v : Q) (m : positive) (e : Z) :
  rounds_to v (S754_finite false m e) ->
  (2 * v <= 18014398509481985 * pow2 971)%Q.
Proof.
  intros (Hm & He & _ & Hhi).
  pose proof (pow2_le e 971 ltac:(lia)) as HT.
  pose proof (pow2_pos e) as HT0.
  rewrite inject_Z_2p1 in Hhi.
  assert (HM : (inject_Z (Z.pos m) <= 9007199254740992)%Q)
    by (apply (inject_Z_le _ (2 ^ 53)); lia).
  assert (HM0 : (0 <= inject_Z (Z.pos m))%Q) by (apply (inject_Z_le 0); lia).
  set (M := inject_Z (Z.pos m)) in *. set (T := pow2 e) in *.
  set (T' := pow2 971) in *.
  assert ((2 * M + 1) * T <= (2 * M + 1) * T')%Q by nra.
  assert ((2 * M + 1) * T' <= 18014398509481985 * T')%Q by nra.
  lra.
Qed.

(** X4: beyond the doubles the score raises: for a word count below 2^1000
    and a slang count of at least 2^1017 times it, either the division or
    the rounding of the infinite density raises [OverflowError]. *)
Theorem score_overflow (s w : Z)
    (Hw : 0 < w < 2 ^ 1000) (Hs : 2 ^ 1017 * w <= s) :
  calculate_gen_z_score s w = Raise OverflowError.
Proof.
  destruct Hw as [Hw0 Hw].
  assert (Hspos : 0 < s) by nia.
  set (v0 := (inject_Z s / inject_Z w)%Q).
  pose proof (inject_Z_lt 0 w Hw0) as HWq. change (inject_Z 0) with 0%Q in HWq.
  assert (Hv0 : (v0 * inject_Z w == inject_Z s)%Q).
  { unfold v0. field. lra. }
  pose proof (pow2_Z 1017 ltac:(lia)) as E1017.
  pose proof (pow2_add 971 46) as E46. change (971 + 46) with 1017 in E46.
  change (pow2 46) with 70368744177664%Q in E46.
  pose proof (pow2_pos 971) as HP971.
  assert (Hbig : (pow2 1017 <= v0)%Q).
  { pose proof (inject_Z_le _ _ Hs) as H. rewrite inject_Z_mult in H.
    rewrite <- E1017, <- Hv0 in H.
    assert (0 <= (v0 - pow2 1017) * inject_Z w)%Q by lra.
    pose proof (Qnonneg_factor _ _ HWq H0). lra. }
  pose proof (SFdiv_int_rounds s w v0 Hspos Hw0 Hw Hv0) as Hq.
  unfold calculate_gen_z_score, int_true_divide.
  destruct (Z.eqb_spec w 0) as [?|_]; [lia|].
  destruct (rounds_to_cases _ _ Hq) as [(mq & eq & Eq)|[-> _]]; [|done].
  rewrite Eq in Hq |- *.
  destruct (rounds_to_relative _ _ _ Hq) as (HVq & Hq1 & Hq2).
  destruct Hq as (Hmq & Heq & _).
  pose proof (SFmul_200_rounds mq eq ltac:(lia) ltac:(lia)) as Hd.
  set (Vq := (inject_Z (Z.pos mq) * pow2 eq)%Q) in *.
  destruct (rounds_to_cases _ _ Hd) as [(md & ed & Ed)|[-> _]]; [|done].
  exfalso. rewrite Ed in Hd.
  pose proof (rounds_to_finite_bound _ _ _ Hd) as Hfin. lra.
Qed.

Lemma score_overflow_witness :
  calculate_gen_z_score (2 ^ 1024) 1 = Raise OverflowError.
Proof.
  apply (score_overflow (2 ^ 1024) 1).
  - split; [lia|reflexivity].
  - vm_compute. discriminate.
Defined.

(** ** More on the matcher *)

Lemma str_count_positive_iff (text sub : str) :
  0 < str_count text sub <-> exists pre post, text = pre ++ sub ++ post.
Proof.
  split.
  - destruct sub as [|a sub]; [by exists [], text|].
    apply count_scan_positive.
  - intros (pre & post & ->).
    pose proof (str_count_occurrence sub pre post). lia.
Qed.

(** The matched spans do not overlap: together they fit in the text. *)
Lemma count_scan_fits (sub t : str) :
  forall skip,
  count_scan sub skip t * Z.of_nat (length sub)
  <= Z.max 0 (Z.of_nat (length t) - Z.of_nat skip).
Proof.
  induction t as [|c t IH]; intros skip; cbn [count_scan]; [lia|].
  destruct skip as [|k].
  - destruct (starts_with sub (c :: t)) eqn:E.
    + apply starts_with_prefix in E as [post E].
      assert (Hlen : (length sub <= length (c :: t))%nat).
      { rewrite E, length_app. lia. }
      specialize (IH (Nat.pred (length sub))).
      cbn [length] in *. lia.
    + specialize (IH 0%nat). cbn [length]. lia.
  - specialize (IH k). cbn [length]. lia.
Qed.

Lemma analyze_comment_is_Some (lower : str -> str)
    (v : list str) (t k : str) :
  is_Some (analyze_comment lower v t !! k)
  <-> k ∈ v /\ exists pre post, lower t = pre ++ lower k ++ post.
Proof.
  rewrite analyze_comment_lookup, <- str_count_positive_iff.
  destruct (decide (k ∈ v /\ 0 < str_count (lower t) (lower k))) as [H|H].
  - split; [done|]. intros _. by eexists.
  - split; [|done]. by intros [? [=]].
Qed.

(** X7: a phrase is reported exactly when it is in the vocabulary and its
    lowercased form occurs somewhere in the lowercased text. *)
Theorem analyze_comment_reports_iff (lower : str -> str)
    (v : list str) (t k : str) :
  is_Some (analyze_comment lower v t !! k)
  <-> k ∈ v /\ exists pre post, lower t = pre ++ lower k ++ post.
Proof. apply analyze_comment_is_Some. Qed.

(** X8: the key is the phrase as listed, the search is for its lowercased
    form: two listed phrases with the same lowercased form (as 'huge L' and
    'huge l' in the shipped list) are reported alike, each with the same
    count. *)
Theorem analyze_comment_case_variants (lower : str -> str)
    (v : list str) (t k1 k2 : str)
    (H1 : k1 ∈ v) (H2 : k2 ∈ v) (Hlow : lower k1 = lower k2) :
  analyze_comment lower v t !! k1 = analyze_comment lower v t !! k2.
Proof.
  rewrite !analyze_comment_lookup, Hlow.
  destruct (decide (k1 ∈ v /\ 0 < str_count (lower t) (lower k2)))
    as [[_ Hp]|Hn].
  - by rewrite decide_True.
  - rewrite decide_False; [done|]. intros [_ Hp]. by apply Hn.
Qed.

Lemma analyze_comment_case_variants_witness :
  analyze_comment ascii_lower keywords (lit "a huge L for them")
    !! lit "huge L"
  = analyze_comment ascii_lower keywords (lit "a huge L for them")
    !! lit "huge l".
Proof.
  apply (analyze_comment_case_variants ascii_lower keywords).
  - apply list_elem_of_In. vm_compute. tauto.
  - apply list_elem_of_In. vm_compute. tauto.
  - reflexivity.
Defined.

(** X9: phrases are searched independently of each other: when a phrase is
    reported, so is every listed phrase whose lowercased form lies inside
    its lowercased form (as 'fr' inside 'fr fr'). *)
Theorem analyze_comment_contained_phrase (lower : str -> str)
    (v : list str) (t k1 k2 a b : str)
    (H1 : k1 ∈ v) (Hin : lower k2 = a ++ lower k1 ++ b)
    (H2 : is_Some (analyze_comment lower v t !! k2)) :
  is_Some (analyze_comment lower v t !! k1).
Proof.
  apply analyze_comment_is_Some in H2 as (_ & pre & post & E).
  apply analyze_comment_is_Some. split; [done|].
  exists (pre ++ a), (b ++ post). rewrite E, Hin.
  by rewrite <- !app_assoc.
Qed.

Lemma analyze_comment_contained_phrase_witness :
  is_Some (analyze_comment ascii_lower keywords (lit "fr fr no cap")
             !! lit "fr").
Proof.
  apply (analyze_comment_contained_phrase ascii_lower keywords
           (lit "fr fr no cap") (lit "fr") (lit "fr fr") [] (lit " fr")).
  - apply list_elem_of_In. vm_compute. tauto.
  - reflexivity.
  - vm_compute. eauto.
Defined.

(** X10: occurrences are counted without overlap, so the count of a
    phrase times the length of its lowercased form never exceeds the
    length of the lowercased text. *)
Theorem analyze_comment_count_fits (lower : str -> str)
    (v : list str) (t k : str) (n : Z)
    (Hn : analyze_comment lower v t !! k = Some n)
    (Hk : lower k <> []) :
  n * Z.of_nat (length (lower k)) <= Z.of_nat (length (lower t)).
Proof.
  rewrite analyze_comment_lookup in Hn.
  destruct (decide (k ∈ v /\ 0 < str_count (lower t) (lower k)));
    [|done].
  injection Hn as <-.
  destruct (lower k) as [|c sub] eqn:E; [done|].
  cbn [str_count].
  pose proof (count_scan_fits (c :: sub) (lower t) 0). lia.
Qed.

Lemma analyze_comment_count_fits_witness :
  1 * Z.of_nat (length (ascii_lower (lit "aa")))
  <= Z.of_nat (length (ascii_lower (lit "aaa"))).
Proof.
  apply (analyze_comment_count_fits ascii_lower [lit "aa"] (lit "aaa")
           (lit "aa") 1).
  - reflexivity.
  - discriminate.
Defined.

(** ** More on the accumulator *)

Section RunFacts.
Variable lower : str -> str.
Variable vocabulary : list str.

Lemma loop_turn_passed_over (c : comment) (st : totals) :
  analysed_body c = None -> loop_turn lower vocabulary st c = st.
Proof.
  destruct c as [[s|]|]; cbn [analysed_body]; [|done|done].
  destruct (is_placeholder (VStr s)) eqn:E; [|done]. intros _.
  unfold loop_turn, try_body, bind, eval, ret. cbn [get_body]. by rewrite E.
Qed.

Lemma loop_turn_analysed_body (c : comment) (s : str) (st : totals) :
  analysed_body c = Some s ->
  loop_turn lower vocabulary st c
  = loop_turn lower vocabulary st (Comment (VStr s))
  /\ is_placeholder (VStr s) = false.
Proof.
  destruct c as [[s'|]|]; cbn [analysed_body]; [|done|done].
  destruct (is_placeholder (VStr s')) eqn:E; [done|]. by intros [= ->].
Qed.

Lemma accumulate_cons (c : comment) (cs : list comment) (st : totals) :
  accumulate lower vocabulary (c :: cs) st
  = accumulate lower vocabulary cs (loop_turn lower vocabulary st c).
Proof. reflexivity. Qed.

Lemma accumulate_analysed (cs : list comment) :
  forall st,
  accumulate lower vocabulary cs st
  = accumulate lower vocabulary
      (List.map (fun s => Comment (VStr s)) (omap analysed_body cs)) st.
Proof.
  induction cs as [|c cs IH]; intros st; [done|].
  rewrite accumulate_cons.
  change (omap analysed_body (c :: cs))
    with (match analysed_body c with
          | Some s => s :: omap analysed_body cs
          | None => omap analysed_body cs
          end).
  destruct (analysed_body c) as [s|] eqn:E.
  - destruct (loop_turn_analysed_body c s st E) as [-> _].
    cbn [List.map]. rewrite accumulate_cons. apply IH.
  - rewrite loop_turn_passed_over by done. apply IH.
Qed.
End RunFacts.

(** X11: a comment that is deleted, removed, not a string or not readable
    leaves no trace: the run over a listing ends as the run over the texts
    it analyses, in the same order. *)
Theorem accumulate_ignores_passed_over (lower : str -> str)
    (vocabulary : list str) (cs : list comment) (st : totals) :
  accumulate lower vocabulary cs st
  = accumulate lower vocabulary
      (List.map (fun s => Comment (VStr s)) (omap analysed_body cs)) st.
Proof. apply accumulate_analysed. Qed.

Lemma counter_update_empty (c : gmap (list N) Z) : counter_update c ∅ = c.
Proof.
  apply map_eq. intros k. unfold counter_update.
  rewrite lookup_union_with, lookup_empty. by destruct (c !! k).
Qed.

Lemma sum_values_empty : sum_values ∅ = 0.
Proof. unfold sum_values. by rewrite map_fold_empty. Qed.

Section Totals.
Variable lower : str -> str.
Variable vocabulary : list str.

(** A turn on an analysed text, whether it holds slang or not. *)
Lemma loop_turn_text (s : str) (st : totals) :
  is_placeholder (VStr s) = false ->
  loop_turn lower vocabulary st (Comment (VStr s))
  = let d := analyze_comment lower vocabulary s in
    Totals (total_words st + split_len s)
      (total_slang st + sum_values d)
      (counter_update (keyword_counts st) d)
      (comments_with_slang st + (if bool_decide (d = ∅) then 0 else 1))
      (processed_comments st + 1).
Proof.
  intros H. rewrite loop_turn_analysed by done. cbn zeta.
  destruct (bool_decide_reflect (analyze_comment lower vocabulary s = ∅))
    as [E|E].
  - rewrite E, counter_update_empty, sum_values_empty.
    unfold count_processed, add_words. cbn. f_equal; lia.
  - unfold count_processed, add_slang, add_words. cbn. reflexivity.
Qed.

Lemma accumulate_totals (cs : list comment) :
  forall st,
  let st' := accumulate lower vocabulary cs st in
  let ds := List.map (analyze_comment lower vocabulary)
              (omap analysed_body cs) in
  processed_comments st'
    = processed_comments st + Z.of_nat (length (omap analysed_body cs))
  /\ total_words st'
     = total_words st + sum_list (List.map split_len (omap analysed_body cs))
  /\ total_slang st' = total_slang st + sum_list (List.map sum_values ds)
  /\ comments_with_slang st'
     = comments_with_slang st
       + Z.of_nat (length (List.filter
                             (fun d => negb (bool_decide (d = ∅))) ds))
  /\ keyword_counts st' = fold_left counter_update ds (keyword_counts st).
Proof.
  induction cs as [|c cs IH]; intros st.
  - cbn. repeat split; lia.
  - rewrite accumulate_cons.
    change (omap analysed_body (c :: cs))
      with (match analysed_body c with
            | Some s => s :: omap analysed_body cs
            | None => omap analysed_body cs
            end).
    destruct (analysed_body c) as [s|] eqn:E.
    + destruct (loop_turn_analysed_body lower vocabulary c s st E)
        as [-> Hp].
      rewrite (loop_turn_text s st Hp).
      specialize (IH (let d := analyze_comment lower vocabulary s in
                      Totals (total_words st + split_len s)
                        (total_slang st + sum_values d)
                        (counter_update (keyword_counts st) d)
                        (comments_with_slang st
                         + (if bool_decide (d = ∅) then 0 else 1))
                        (processed_comments st + 1))).
      cbn zeta in IH |- *. destruct IH as (H1 & H2 & H3 & H4 & H5).
      rewrite H1, H2, H3, H4, H5.
      cbn [total_words total_slang keyword_counts comments_with_slang
           processed_comments List.map List.filter sum_list foldr length
           fold_left].
      destruct (bool_decide (analyze_comment lower vocabulary s = ∅));
        cbn [negb length]; repeat split; unfold sum_list; lia.
    + rewrite loop_turn_passed_over by done. apply IH.
Qed.
End Totals.

(** C2: a record whose analysis raises is skipped and the loop goes on.
    The turn on it leaves every counter (words, slang, phrase mapping,
    records with slang, processed records) as it was; the run over a
    sequence holding the record ends as the run over the sequence without
    it; and every later record is still processed: from the counters
    reached before the failing record, the processed count grows by the
    number of later texts analysed, the word total by their word counts,
    the slang total by the counts reported for them, the records with
    slang by the number of them with a non-empty report, and the phrase
    mapping by their reports. *)
Theorem failing_record_skipped (lower : str -> str) (vocabulary : list str)
    (c : comment) (st : totals) (e : exn)
    (Hraise : fst (try_body lower vocabulary c st) = Raise e) :
  (forall st', loop_turn lower vocabulary st' c = st')
  /\ (forall (pre post : list comment) (st0 : totals),
        accumulate lower vocabulary (pre ++ c :: post) st0
        = accumulate lower vocabulary (pre ++ post) st0)
  /\ (forall (pre post : list comment) (st0 : totals),
        let st1 := accumulate lower vocabulary pre st0 in
        let st' := accumulate lower vocabulary (pre ++ c :: post) st0 in
        let ts := omap analysed_body post in
        let ds := List.map (analyze_comment lower vocabulary) ts in
        processed_comments st'
          = processed_comments st1 + Z.of_nat (length ts)
        /\ total_words st'
           = total_words st1 + sum_list (List.map split_len ts)
        /\ total_slang st'
           = total_slang st1 + sum_list (List.map sum_values ds)
        /\ comments_with_slang st'
           = comments_with_slang st1
             + Z.of_nat (length (List.filter
                                   (fun d => negb (bool_decide (d = ∅))) ds))
        /\ keyword_counts st'
           = fold_left counter_update ds (keyword_counts st1)).
Proof.
  apply try_body_raises in Hraise.
  assert (Hskip : forall st', loop_turn lower vocabulary st' c = st').
  { intros st'. unfold loop_turn.
    destruct (try_body_raise_keeps lower vocabulary c st' Hraise) as [e' ->].
    done. }
  assert (Hgo : forall (pre post : list comment) (st0 : totals),
             accumulate lower vocabulary (pre ++ c :: post) st0
             = accumulate lower vocabulary post
                 (accumulate lower vocabulary pre st0)).
  { intros pre post st0. rewrite accumulate_app, accumulate_cons.
    by rewrite Hskip. }
  split_and!.
  - exact Hskip.
  - intros pre post st0. by rewrite Hgo, accumulate_app.
  - intros pre post st0. cbn zeta. rewrite Hgo.
    apply (accumulate_totals lower vocabulary post
             (accumulate lower vocabulary pre st0)).
Qed.

Lemma failing_record_skipped_witness :
  (forall st', loop_turn ascii_lower keywords st' (Comment VNone) = st')
  /\ (forall (pre post : list comment) (st0 : totals),
        accumulate ascii_lower keywords (pre ++ Comment VNone :: post) st0
        = accumulate ascii_lower keywords (pre ++ post) st0)
  /\ (forall (pre post : list comment) (st0 : totals),
        let st1 := accumulate ascii_lower keywords pre st0 in
        let st' := accumulate ascii_lower keywords
                     (pre ++ Comment VNone :: post) st0 in
        let ts := omap analysed_body post in
        let ds := List.map (analyze_comment ascii_lower keywords) ts in
        processed_comments st'
          = processed_comments st1 + Z.of_nat (length ts)
        /\ total_words st'
           = total_words st1 + sum_list (List.map split_len ts)
        /\ total_slang st'
           = total_slang st1 + sum_list (List.map sum_values ds)
        /\ comments_with_slang st'
           = comments_with_slang st1
             + Z.of_nat (length (List.filter
                                   (fun d => negb (bool_decide (d = ∅))) ds))
        /\ keyword_counts st'
           = fold_left counter_update ds (keyword_counts st1)).
Proof.
  apply (failing_record_skipped ascii_lower keywords (Comment VNone)
           initial_totals AttributeError).
  reflexivity.
Defined.

(** X12: what the loop leaves in its counters, for any listing: the
    processed count is the number of texts analysed, the word total is the
    sum of their word counts, the slang total the sum of all counts
    reported for them, the comments with slang the number of texts with a
    non-empty report, and the phrase counter the reports added up. *)
Theorem accumulate_closed_form (lower : str -> str) (vocabulary : list str)
    (cs : list comment) (st : totals) :
  let st' := accumulate lower vocabulary cs st in
  let ts := omap analysed_body cs in
  let ds := List.map (analyze_comment lower vocabulary) ts in
  processed_comments st' = processed_comments st + Z.of_nat (length ts)
  /\ total_words st' = total_words st + sum_list (List.map split_len ts)
  /\ total_slang st' = total_slang st + sum_list (List.map sum_values ds)
  /\ comments_with_slang st'
     = comments_with_slang st
       + Z.of_nat (length (List.filter
                             (fun d => negb (bool_decide (d = ∅))) ds))
  /\ keyword_counts st' = fold_left counter_update ds (keyword_counts st).
Proof. apply accumulate_totals. Qed.

(** ** Sums over a counter *)

Lemma sum_values_insert (m : gmap (list N) Z) (k : str) (x : Z) :
  m !! k = None -> sum_values (<[k:=x]> m) = sum_values m + x.
Proof.
  intros H. unfold sum_values. rewrite map_fold_insert_L; [done| |done].
  intros. lia.
Qed.

Lemma sum_values_delete (m : gmap (list N) Z) (k : str) (x : Z) :
  m !! k = Some x -> sum_values m = sum_values (delete k m) + x.
Proof.
  intros H. unfold sum_values.
  rewrite (map_fold_delete_L _ _ k x m); [done| |done].
  intros. lia.
Qed.

(** [Counter.update] adds the totals. *)
Lemma sum_values_counter_update (d : gmap (list N) Z) :
  forall c, sum_values (counter_update c d) = sum_values c + sum_values d.
Proof.
  induction d as [|k x d Hk IH] using map_ind; intros c.
  - rewrite counter_update_empty, sum_values_empty. lia.
  - rewrite (sum_values_insert d k x Hk).
    destruct (c !! k) as [y|] eqn:Hc.
    + assert (E : counter_update c (<[k:=x]> d)
                  = <[k:=y + x]> (counter_update (delete k c) d)).
      { unfold counter_update.
        rewrite (insert_union_with _ (delete k c) d k y x (y + x)) by done.
        by rewrite insert_delete_id. }
      rewrite E, sum_values_insert.
      * rewrite IH, (sum_values_delete c k y Hc). lia.
      * unfold counter_update.
        by rewrite lookup_union_with, lookup_delete_eq, Hk.
    + assert (E : counter_update c (<[k:=x]> d)
                  = <[k:=x]> (counter_update c d)).
      { unfold counter_update. by rewrite insert_union_with_r. }
      rewrite E, sum_values_insert.
      * rewrite IH. lia.
      * unfold counter_update. by rewrite lookup_union_with, Hc, Hk.
Qed.

Lemma sum_values_positive (m : gmap (list N) Z) :
  map_Forall (fun _ n => 1 <= n) m ->
  0 <= sum_values m /\ (m <> ∅ -> 1 <= sum_values m).
Proof.
  induction m as [|k x m Hk IH] using map_ind; intros H.
  - rewrite sum_values_empty. split; [lia|done].
  - rewrite sum_values_insert by done.
    apply map_Forall_insert in H as [Hx Hm]; [|done].
    destruct (IH Hm) as [IH0 _]. split; intros; lia.
Qed.

Lemma analyze_comment_values (lower : str -> str) (v : list str) (t : str) :
  map_Forall (fun _ n => 1 <= n) (analyze_comment lower v t).
Proof.
  intros k n. rewrite analyze_comment_lookup.
  destruct (decide (k ∈ v /\ 0 < str_count (lower t) (lower k)))
    as [[_ Hp]|]; [|done].
  intros [= <-]. lia.
Qed.

Lemma split_len_from_nonneg (t : str) :
  forall b, 0 <= split_len_from b t.
Proof.
  induction t as [|c t IH]; intros b; cbn [split_len_from]; [lia|].
  destruct (is_space c); [apply IH|].
  specialize (IH true). destruct b; lia.
Qed.


(** ** Invariants of the loop *)

Lemma analyze_comment_entries (lower : str -> str) (v : list str) (t : str) :
  map_Forall (fun k n => 1 <= n /\ k ∈ v) (analyze_comment lower v t).
Proof.
  intros k n. rewrite analyze_comment_lookup.
  destruct (decide (k ∈ v /\ 0 < str_count (lower t) (lower k)))
    as [[Hin Hp]|]; [|done].
  intros [= <-]. split; [lia|done].
Qed.

Lemma counter_update_entries (v : list str) (c d : gmap (list N) Z) :
  map_Forall (fun k n => 1 <= n /\ k ∈ v) c ->
  map_Forall (fun k n => 1 <= n /\ k ∈ v) d ->
  map_Forall (fun k n => 1 <= n /\ k ∈ v) (counter_update c d).
Proof.
  intros Hc Hd k n. unfold counter_update.
  rewrite lookup_union_with_Some.
  intros [[H _]|[[_ H]|(x & y & Hx & Hy & [= <-])]].
  - by apply Hc.
  - by apply Hd.
  - destruct (Hc k x Hx), (Hd k y Hy). split; [lia|done].
Qed.

Section Invariants.
Variable lower : str -> str.
Variable vocabulary : list str.

Lemma initial_totals_consistent : consistent vocabulary initial_totals.
Proof.
  unfold consistent, initial_totals. cbn.
  rewrite sum_values_empty. split_and!; try lia.
  apply map_Forall_empty.
Qed.

Lemma loop_turn_consistent (st : totals) (c : comment) :
  consistent vocabulary st ->
  consistent vocabulary (loop_turn lower vocabulary st c).
Proof.
  intros Hst. destruct (analysed_body c) as [s|] eqn:E.
  - destruct (loop_turn_analysed_body lower vocabulary c s st E) as [-> Hp].
    rewrite (loop_turn_text lower vocabulary s st Hp). cbn zeta.
    destruct Hst as (H1 & H2 & H3 & H4 & H5).
    pose proof (analyze_comment_entries lower vocabulary s) as Hd.
    destruct (sum_values_positive _ (analyze_comment_values lower vocabulary s))
      as [Hs0 Hs1].
    pose proof (split_len_from_nonneg s false) as Hw. fold (split_len s) in Hw.
    unfold consistent. cbn.
    rewrite sum_values_counter_update.
    destruct (bool_decide_reflect (analyze_comment lower vocabulary s = ∅))
      as [Ee|Ee].
    + split_and!; try lia. by apply counter_update_entries.
    + specialize (Hs1 Ee). split_and!; try lia.
      by apply counter_update_entries.
  - by rewrite loop_turn_passed_over.
Qed.

Lemma accumulate_consistent (cs : list comment) :
  forall st, consistent vocabulary st ->
  consistent vocabulary (accumulate lower vocabulary cs st).
Proof.
  induction cs as [|c cs IH]; intros st Hst; [done|].
  rewrite accumulate_cons. apply IH. by apply loop_turn_consistent.
Qed.

(** Two turns of the loop can be exchanged. *)
Lemma loop_turn_comm (st : totals) (a b : comment) :
  loop_turn lower vocabulary (loop_turn lower vocabulary st a) b
  = loop_turn lower vocabulary (loop_turn lower vocabulary st b) a.
Proof.
  destruct (analysed_body a) as [s|] eqn:Ea;
    [|by rewrite !(loop_turn_passed_over lower vocabulary a)].
  destruct (analysed_body b) as [s'|] eqn:Eb;
    [|by rewrite !(loop_turn_passed_over lower vocabulary b)].
  destruct (loop_turn_analysed_body lower vocabulary a s st Ea) as [Ha Hpa].
  destruct (loop_turn_analysed_body lower vocabulary b s' st Eb) as [Hb Hpb].
  rewrite Ha, Hb.
  rewrite (proj1 (loop_turn_analysed_body lower vocabulary b s' _ Eb)).
  rewrite (proj1 (loop_turn_analysed_body lower vocabulary a s _ Ea)).
  rewrite !loop_turn_text by done. cbn.
  f_equal; try lia.
  apply map_eq. intros k. unfold counter_update.
  rewrite !lookup_union_with.
  destruct (keyword_counts st !! k),
    (analyze_comment lower vocabulary s !! k),
    (analyze_comment lower vocabulary s' !! k); cbn; f_equal; lia.
Qed.

Lemma accumulate_permutation (cs cs' : list comment) :
  cs ≡ₚ cs' ->
  forall st, accumulate lower vocabulary cs st
             = accumulate lower vocabulary cs' st.
Proof.
  induction 1 as [|c l l' _ IH|a b l|l l' l'' _ IH1 _ IH2]; intros st.
  - done.
  - rewrite !accumulate_cons. apply IH.
  - rewrite !accumulate_cons. by rewrite loop_turn_comm.
  - by rewrite IH1.
Qed.
End Invariants.

Lemma analysed_bodies_length (cs : list comment) :
  (length (omap analysed_body cs) <= length cs)%nat.
Proof.
  induction cs as [|c cs IH]; [done|].
  change (omap analysed_body (c :: cs))
    with (match analysed_body c with
          | Some s => s :: omap analysed_body cs
          | None => omap analysed_body cs
          end).
  destruct (analysed_body c); cbn [length]; lia.
Qed.

(** X13: after any listing the slang total is the sum of the counts in the
    phrase counter, whose keys are phrases of the vocabulary with counts of
    at least 1. *)
Theorem accumulate_counter_total (lower : str -> str)
    (vocabulary : list str) (cs : list comment) :
  let st := accumulate lower vocabulary cs initial_totals in
  sum_values (keyword_counts st) = total_slang st
  /\ map_Forall (fun k n => 1 <= n /\ k ∈ vocabulary) (keyword_counts st).
Proof.
  destruct (accumulate_consistent lower vocabulary cs initial_totals
              (initial_totals_consistent vocabulary))
    as (_ & _ & _ & H4 & H5).
  done.
Qed.

(** X14: after any listing the comments with slang are at most the
    comments processed, which are at most the comments listed; every
    comment with slang has added at least one to the slang total; no total
    is negative. *)
Theorem accumulate_counters_ordered (lower : str -> str)
    (vocabulary : list str) (cs : list comment) :
  let st := accumulate lower vocabulary cs initial_totals in
  0 <= comments_with_slang st <= processed_comments st
  /\ processed_comments st <= Z.of_nat (length cs)
  /\ comments_with_slang st <= total_slang st
  /\ 0 <= total_words st.
Proof.
  destruct (accumulate_consistent lower vocabulary cs initial_totals
              (initial_totals_consistent vocabulary))
    as (H1 & H2 & H3 & _ & _).
  destruct (accumulate_totals lower vocabulary cs initial_totals)
    as (Hp & _).
  cbn zeta in *. rewrite Hp. cbn [processed_comments initial_totals].
  pose proof (analysed_bodies_length cs).
  repeat split; try lia.
  rewrite Hp in H1. cbn [processed_comments initial_totals] in H1. lia.
Qed.

(** X15: the totals do not depend on the order in which the listing yields
    the comments. *)
Theorem accumulate_order_independent (lower : str -> str)
    (vocabulary : list str) (cs cs' : list comment) (st : totals)
    (Hperm : cs ≡ₚ cs') :
  accumulate lower vocabulary cs st = accumulate lower vocabulary cs' st.
Proof. by apply accumulate_permutation. Qed.

Lemma accumulate_order_independent_witness :
  accumulate ascii_lower keywords
    [Comment (VStr (lit "no cap")); Comment VNone;
     Comment (VStr (lit "bruh"))] initial_totals
  = accumulate ascii_lower keywords
      [Comment (VStr (lit "bruh")); Comment (VStr (lit "no cap"));
       Comment VNone] initial_totals.
Proof.
  apply accumulate_order_independent.
  symmetry. apply (Permutation_cons_append [_; _]).
Defined.

(** ** The whole run *)

Lemma reports_all_empty (ds : list (gmap (list N) Z)) :
  Forall (fun d => d = ∅) ds ->
  sum_list (List.map sum_values ds) = 0
  /\ List.filter (fun d => negb (bool_decide (d = ∅))) ds = []
  /\ forall c, fold_left counter_update ds c = c.
Proof.
  induction 1 as [|d ds -> _ (IH1 & IH2 & IH3)]; [done|].
  cbn [List.map sum_list foldr List.filter fold_left].
  fold (sum_list (List.map sum_values ds)).
  rewrite IH1, sum_values_empty, bool_decide_true by done.
  split_and!; [done|done|]. intros c. by rewrite counter_update_empty.
Qed.

Lemma split_len_from_app_space (a r : str) (c : N) :
  is_space c = true ->
  forall b, split_len_from b (a ++ c :: r)
            = split_len_from b a + split_len_from false r.
Proof.
  intros Hc. induction a as [|x a IH]; intros b.
  - cbn [app split_len_from]. by rewrite Hc.
  - cbn [app split_len_from]. destruct (is_space x); rewrite IH; lia.
Qed.

Lemma split_len_from_bound (t : str) :
  forall b, 2 * split_len_from b t
            <= Z.of_nat (length t) + (if b then 0 else 1).
Proof.
  induction t as [|c t IH]; intros b.
  - cbn. destruct b; lia.
  - cbn [split_len_from length]. destruct (is_space c).
    + specialize (IH false). cbn beta iota in IH. destruct b; lia.
    + specialize (IH true). cbn beta iota in IH. destruct b; lia.
Qed.

(** X16: when the listing yields nothing to analyse (only placeholders,
    bodies that are no text and comments that fail) the run ends with every
    counter as initialised and a score of 0. *)
Theorem run_nothing_analysed (lower : str -> str) (vocabulary : list str)
    (cs : list comment) (H : omap analysed_body cs = []) :
  analyze_subreddit_comments lower vocabulary cs = (Ok 0, initial_totals).
Proof.
  assert (E : accumulate lower vocabulary cs initial_totals = initial_totals)
    by (by rewrite accumulate_analysed, H).
  unfold analyze_subreddit_comments. by rewrite E.
Qed.

Lemma run_nothing_analysed_witness :
  analyze_subreddit_comments ascii_lower keywords
    [Comment (VStr (lit "[deleted]")); Unfetchable; Comment VNone;
     Comment (VStr (lit "[removed]"))]
  = (Ok 0, initial_totals).
Proof. apply run_nothing_analysed. reflexivity. Defined.

(** X17: when no analysed text holds a phrase of the vocabulary, the run
    scores 0, with a slang total of 0, no comment with slang and an empty
    phrase counter, whatever the number of words. *)
Theorem run_without_slang (lower : str -> str) (vocabulary : list str)
    (cs : list comment)
    (H : Forall (fun s => analyze_comment lower vocabulary s = ∅)
           (omap analysed_body cs)) :
  let r := analyze_subreddit_comments lower vocabulary cs in
  fst r = Ok 0
  /\ total_slang (snd r) = 0
  /\ comments_with_slang (snd r) = 0
  /\ keyword_counts (snd r) = ∅.
Proof.
  destruct (accumulate_totals lower vocabulary cs initial_totals)
    as (_ & _ & H3 & H4 & H5).
  destruct (reports_all_empty
              (List.map (analyze_comment lower vocabulary)
                 (omap analysed_body cs))) as (E1 & E2 & E3).
  { apply List.Forall_map. exact H. }
  cbn zeta in *. rewrite E1 in H3. rewrite E2 in H4. rewrite E3 in H5.
  cbn in H3, H4, H5.
  unfold analyze_subreddit_comments. cbn [fst snd].
  rewrite H3, H4, H5. split_and!; try done. apply score_no_slang.
Qed.

Lemma run_without_slang_witness :
  let r := analyze_subreddit_comments ascii_lower keywords
             [Comment (VStr (lit "Hello world")); Comment VNone] in
  fst r = Ok 0
  /\ total_slang (snd r) = 0
  /\ comments_with_slang (snd r) = 0
  /\ keyword_counts (snd r) = ∅.
Proof.
  apply run_without_slang.
  constructor; [vm_compute; reflexivity | constructor].
Defined.

(** X18: when the loop ends with at most [2^43] words and fewer than
    [2^1000] slang occurrences, the run computes a score, and the score
    lies between 0 and 100: the totals the loop hands over are never
    negative. *)
Theorem run_score_in_range (lower : str -> str) (vocabulary : list str)
    (cs : list comment)
    (Hs : total_slang (accumulate lower vocabulary cs initial_totals)
          < 2 ^ 1000)
    (Hw : total_words (accumulate lower vocabulary cs initial_totals)
          <= 2 ^ 43) :
  exists r, fst (analyze_subreddit_comments lower vocabulary cs) = Ok r
            /\ 0 <= r <= 100.
Proof.
  destruct (accumulate_consistent lower vocabulary cs initial_totals
              (initial_totals_consistent vocabulary))
    as (H1 & H2 & H3 & _ & _).
  unfold analyze_subreddit_comments. cbn [fst].
  set (st := accumulate lower vocabulary cs initial_totals) in *.
  destruct (Z.eq_dec (total_words st) 0) as [E|E].
  - exists 0. rewrite E. split; [done|lia].
  - destruct (score_nearest (total_slang st) (total_words st))
      as (n & En & Hn); [lia|lia|].
    exists (Z.min 100 n). split; [done|]. nia.
Qed.

Lemma run_score_in_range_witness :
  exists r, fst (analyze_subreddit_comments ascii_lower keywords
                   [Comment (VStr (lit "no cap that slaps"));
                    Comment (VStr (lit "[deleted]"))]) = Ok r
            /\ 0 <= r <= 100.
Proof.
  apply run_score_in_range; vm_compute; first [reflexivity | discriminate].
Defined.

(** ** Counting words *)

(** X19: the word count of a text is the sum of the word counts on both
    sides of any whitespace character in it. *)
Theorem split_len_across_space (a r : str) (c : N)
    (Hc : is_space c = true) :
  split_len (a ++ c :: r) = split_len a + split_len r.
Proof. unfold split_len. by apply split_len_from_app_space. Qed.

Lemma split_len_across_space_witness :
  split_len (lit "no cap" ++ 10%N :: lit "for real")
  = split_len (lit "no cap") + split_len (lit "for real").
Proof. apply split_len_across_space. reflexivity. Defined.

(** X20: a text of [n] characters has between 0 and [(n + 1) / 2]
    words. *)
Theorem split_len_bound (t : str) :
  0 <= split_len t /\ 2 * split_len t <= Z.of_nat (length t) + 1.
Proof.
  split; [apply split_len_from_nonneg|].
  apply (split_len_from_bound t false).
Qed.
